(** * harmony-map: scales, chords and chordal relationships

    A shallow embedding of [harmony.py].  Python integers are [Z], tuples and
    lists of intervals are [list Z], the [chords] dictionary of a scale is a
    [gmap string (gset Z)], and scale objects live in a heap so that two
    arguments of [chordal_relationships] may denote the same object.  The one
    unbounded loop ([while True] in [add_chord]) is driven by a fuel counter;
    the termination lemmas say how much fuel is enough. *)

From Stdlib Require Import Ascii.
From stdpp Require Import gmap strings list fin_maps pretty.

Local Open Scope Z_scope.

(** ** Outcomes of running Python code *)

Inductive pyexn : Type :=
| IndexError
| KeyError
| ZeroDivisionError
| InvalidReference.

Inductive res (A : Type) : Type :=
| Ret (a : A)
| Raise (e : pyexn)
| OutOfFuel.

Arguments Ret {A} a.
Arguments Raise {A} e.
Arguments OutOfFuel {A}.

#[global] Instance res_ret : MRet res := λ A a, Ret a.
#[global] Instance res_bind : MBind res := λ A B f m,
  match m with
  | Ret a => f a
  | Raise e => Raise e
  | OutOfFuel => OutOfFuel
  end.

Definition returns {A} (m : res A) : Prop := ∃ a, m = Ret a.

(** [for x in xs: st = body x st] *)
Fixpoint for_each {A St} (xs : list A) (body : A → St → res St) (st : St) : res St :=
  match xs with
  | [] => Ret st
  | x :: xs' => st' ← body x st; for_each xs' body st'
  end.

(** [l[i]] on a Python list: negative indices count from the end. *)
Definition py_index (l : list Z) (i : Z) : res Z :=
  let n := Z.of_nat (length l) in
  let k := if i <? 0 then i + n else i in
  if (k <? 0) || (n <=? k) then Raise IndexError
  else match l !! Z.to_nat k with
       | Some x => Ret x
       | None => Raise IndexError
       end.

(** [a % b] on Python integers (the result takes the sign of [b]). *)
Definition py_mod (a b : Z) : res Z :=
  if b =? 0 then Raise ZeroDivisionError else Ret (a `mod` b).

(** [range(a, b)] *)
Definition py_range (a b : Z) : list Z := seqZ a (b - a).

(** [d[k]] on a dictionary. *)
Definition py_getitem {V} (d : gmap string V) (k : string) : res V :=
  match d !! k with
  | Some v => Ret v
  | None => Raise KeyError
  end.

(** [len(x)] on a set. *)
Definition py_len (x : gset Z) : Z := Z.of_nat (size x).

(** ** Core classes *)

Record Chord : Type := mkChord {
  chord_name : string;
  chord_intervals : list Z
}.

Record Scale : Type := mkScale {
  name : string;
  intervals : list Z;
  chords : gmap string (gset Z)
}.

(** [Scale.__init__] *)
Definition Scale_init (nm : string) (ivs : list Z) : Scale :=
  {| name := nm; intervals := ivs; chords := ∅ |}.

Definition set_chords (s : Scale) (cs : gmap string (gset Z)) : Scale :=
  {| name := name s; intervals := intervals s; chords := cs |}.

Definition num_notes (s : Scale) : Z := Z.of_nat (length (intervals s)).

(** ** [Scale.interval_between] *)

Definition interval_between (s : Scale) (i j : Z) : res Z :=
  let '(i, j) := if i >? j then (j, i) else (i, j) in
  for_each (py_range 0 (j - i))
    (λ k accumulated_interval,
       idx ← py_mod (i + k) (num_notes s);
       x ← py_index (intervals s) idx;
       Ret (accumulated_interval + x))
    0.

(** ** [Scale.add_chord] *)

(** How an iteration of a loop ends: the loop goes on, or a [break] leaves it. *)
Inductive flow (St : Type) : Type :=
| Continue (st : St)
| Break (st : St).

Arguments Continue {St} st.
Arguments Break {St} st.

(** One iteration of the [while True] loop.  The state is
    [(accumulated_interval, i, illegal_chord)]. *)
Definition while_body (s : Scale) (current_interval : Z) (st : Z * Z * bool)
    : res (flow (Z * Z * bool)) :=
  let '(accumulated_interval, i, illegal_chord) := st in
  x ← py_index (intervals s) i;
  let accumulated_interval := accumulated_interval + x in
  let i := i + 1 in
  i ← py_mod i (num_notes s);
  if accumulated_interval =? current_interval then
    Ret (Break (accumulated_interval, i, illegal_chord))
  else if accumulated_interval >? current_interval then
    Ret (Break (accumulated_interval, i, true))
  else Ret (Continue (accumulated_interval, i, illegal_chord)).

Fixpoint while_true (fuel : nat) (s : Scale) (current_interval : Z)
    (st : Z * Z * bool) : res (Z * Z * bool) :=
  match fuel with
  | O => OutOfFuel
  | S fuel' =>
      r ← while_body s current_interval st;
      match r with
      | Break st' => Ret st'
      | Continue st' => while_true fuel' s current_interval st'
      end
  end.

(** [for current_interval in chord.intervals]; the state is
    [(i, illegal_chord)].  A [break] of the inner loop does not leave this
    loop: after an overshoot the walk goes on with the next target. *)
Definition for_chord_intervals (fuel : nat) (s : Scale) (targets : list Z)
    (st : Z * bool) : res (Z * bool) :=
  for_each targets
    (λ current_interval '(i, illegal_chord),
       '(_, i, illegal_chord) ← while_true fuel s current_interval (0, i, illegal_chord);
       Ret (i, illegal_chord))
    st.

(** [for base_note in range(0, self.num_notes())]; the state is the scale
    (whose [chords] entry is updated in place) and [chord_added]. *)
Definition for_base_notes (fuel : nat) (chord : Chord) (bases : list Z)
    (st : Scale * bool) : res (Scale * bool) :=
  for_each bases
    (λ base_note '(s, chord_added),
       '(_, illegal_chord) ← for_chord_intervals fuel s (chord_intervals chord) (base_note, false);
       if negb illegal_chord then
         roots ← py_getitem (chords s) (chord_name chord);
         Ret (set_chords s (<[chord_name chord := roots ∪ {[base_note]}]> (chords s)), true)
       else Ret (s, chord_added))
    st.

Definition add_chord (fuel : nat) (s : Scale) (chord : Chord) : res (Scale * bool) :=
  let s := set_chords s (<[chord_name chord := ∅]> (chords s)) in
  for_base_notes fuel chord (py_range 0 (num_notes s)) (s, false).

(** Fuel that lets every [while True] loop of [add_chord] finish on a scale of
    positive intervals: one more than the largest target of the chord. *)
Definition enough_fuel (chord : Chord) : nat :=
  S (Z.to_nat (foldr Z.max 0 (chord_intervals chord))).

(** ** [Scale.has_chord] *)

(** [chord.name in self.chords and len(self.chords[chord.name]) > 0], then the
    same with [== 0], then the [else]. *)
Definition has_chord (fuel : nat) (s : Scale) (chord : Chord) : res (Scale * bool) :=
  match chords s !! chord_name chord with
  | Some roots =>
      if py_len roots >? 0 then Ret (s, true)
      else if py_len roots =? 0 then Ret (s, false)
      else add_chord fuel s chord
  | None => add_chord fuel s chord
  end.

(** ** Text output *)

Inductive pyval : Type :=
| VStr (s : string)
| VInt (z : Z).

(** [str(v)] *)
Definition py_str (v : pyval) : string :=
  match v with
  | VStr s => s
  | VInt z => pretty z
  end.

(** A format string cut at its replacement fields [{n}]. *)
Inductive piece : Type :=
| Lit (c : ascii)
| Field (n : nat).

Definition digit_of (c : ascii) : option nat :=
  let n := nat_of_ascii c in
  if (48 <=? n)%nat && (n <=? 57)%nat then Some (n - 48)%nat else None.

(** Reads the digits of a field up to its closing brace. *)
Fixpoint parse_field (acc : nat) (s : string) : option (nat * string) :=
  match s with
  | EmptyString => None
  | String c s' =>
      if Ascii.eqb c "}" then Some (acc, s')
      else match digit_of c with
           | Some d => parse_field (10 * acc + d) s'
           | None => None
           end
  end.

Fixpoint skip_field (s : string) : string :=
  match s with
  | EmptyString => EmptyString
  | String c s' => if Ascii.eqb c "}" then s' else skip_field s'
  end.

Fixpoint parse_template (fuel : nat) (s : string) : list piece :=
  match fuel, s with
  | O, _ => []
  | _, EmptyString => []
  | S fuel', String c s' =>
      if Ascii.eqb c "{" then
        match parse_field 0 s' with
        | Some (n, _) => Field n :: parse_template fuel' (skip_field s')
        | None => Lit c :: parse_template fuel' s'
        end
      else Lit c :: parse_template fuel' s'
  end.

Fixpoint render (t : list piece) (args : list pyval) : res string :=
  match t with
  | [] => Ret EmptyString
  | Lit c :: t' => rest ← render t' args; Ret (String c rest)
  | Field n :: t' =>
      match args !! n with
      | Some v => rest ← render t' args; Ret (py_str v +:+ rest)
      | None => Raise IndexError
      end
  end.

(** [template.format(args...)] for templates whose only braces are fields of
    the form [{n}], as the program's are; arguments that no field names are
    dropped, as [str.format] does. *)
Definition py_format (template : string) (args : list pyval) : res string :=
  render (parse_template (String.length template) template) args.

Definition newline : string := String "010" EmptyString.

(** What the program prints.  The text of a set or of a dictionary follows
    the iteration order of the interpreter's hash tables, which is not
    modelled: such a line keeps the value that is printed. *)
Inductive event : Type :=
| Print (text : string)
| PrintScale (scale_name : string) (scale_chords : gmap string (gset Z))
| PrintReach (chord_name : string) (fifths_relations : gset Z).

(** ** Scale objects *)

Abbreviation loc := nat (only parsing).
Abbreviation heap := (gmap nat Scale).

Definition deref (h : heap) (l : loc) : res Scale :=
  match h !! l with
  | Some s => Ret s
  | None => Raise InvalidReference
  end.

(** [scale.has_chord(chord)] on a scale object. *)
Definition call_has_chord (fuel : nat) (h : heap) (scale : loc) (chord : Chord)
    : res (heap * bool) :=
  s ← deref h scale;
  '(s, b) ← has_chord fuel s chord;
  Ret (<[scale := s]> h, b).

(** [scale.add_chord(chord)] on a scale object. *)
Definition call_add_chord (fuel : nat) (h : heap) (scale : loc) (chord : Chord)
    : res (heap * bool) :=
  s ← deref h scale;
  '(s, b) ← add_chord fuel s chord;
  Ret (<[scale := s]> h, b).

(** ** [chordal_relationships] *)

Definition relationship_template : string :=
  "Distance between {0} to {1} (via {2} chord at {3} for the first scale to {4} of the second scale) (Looking where Scale 2 is relative to Scale 1) is {5} fifths right, or {6} fourths left or, or semitones right." +:+ newline.

(** The body of the two nested [for] loops; the state is the output so far and
    [fifths_relations]. *)
Definition relationship_step (scale_1 scale_2 : Scale) (chord : Chord)
    (root_1 root_2 : Z) (st : list event * gset Z) : res (list event * gset Z) :=
  let '(out, fifths_relations) := st in
  dist_1 ← interval_between scale_1 0 root_1;
  dist_2 ← interval_between scale_1 0 root_2;
  let key_distance := dist_2 - dist_1 in
  text ← py_format relationship_template
    [ VStr (name scale_1);
      VStr (name scale_2);
      VStr (chord_name chord);
      VInt (root_1 + 1);
      VInt (root_2 + 1);
      VInt ((key_distance * 7) `mod` 12);
      VInt ((12 - ((key_distance * 7) `mod` 12)) `mod` 12);
      VInt (key_distance `mod` 12) ];
  Ret (out ++ [Print text], fifths_relations ∪ {[ (key_distance * 7) `mod` 12 ]}).

(** The sets are walked in the order of [elements]; no statement below
    depends on that order. *)
Definition chordal_relationships (fuel : nat) (h : heap) (scale_1 scale_2 : loc)
    (chord : Chord) : res (heap * list event) :=
  let fifths_relations : gset Z := ∅ in
  '(h, b1) ← call_has_chord fuel h scale_1 chord;
  '(h, b2) ← (if b1 then call_has_chord fuel h scale_2 chord else Ret (h, false));
  '(out, fifths_relations) ←
    (if b1 && b2 then
       s1 ← deref h scale_1;
       s2 ← deref h scale_2;
       roots_1 ← py_getitem (chords s1) (chord_name chord);
       for_each (elements roots_1)
         (λ root_1 st,
            roots_2 ← py_getitem (chords s2) (chord_name chord);
            for_each (elements roots_2) (relationship_step s1 s2 chord root_1) st)
         ([], fifths_relations)
     else Ret ([], fifths_relations));
  Ret (h, out ++ [PrintReach (chord_name chord) fifths_relations]).

(** The set shown by the last line of the output. *)
Definition reached (out : list event) : option (gset Z) :=
  match last out with
  | Some (PrintReach _ fifths_relations) => Some fifths_relations
  | _ => None
  end.

(** ** Module-level data and code *)

Definition major_scale : loc := 0%nat.
Definition minor_scale : loc := 1%nat.
Definition melodic_minor : loc := 2%nat.
Definition harmonic_minor : loc := 3%nat.

Definition major_chord : Chord := mkChord "Major" [4;3].
Definition minor_chord : Chord := mkChord "Minor" [3;4].
Definition dim_chord : Chord := mkChord "Diminished" [3;3].
Definition aug_chord : Chord := mkChord "Augmented" [4;4].
Definition sus2_chord : Chord := mkChord "Sus2" [2;5].
Definition sus4_chord : Chord := mkChord "Sus4" [5;2].

Definition scales : list loc := [major_scale; minor_scale; melodic_minor; harmonic_minor].
Definition catalog : list Chord :=
  [major_chord; minor_chord; dim_chord; aug_chord; sus2_chord; sus4_chord].

(** The four [Scale(...)] objects as they are constructed. *)
Definition constructed : heap :=
  {[ major_scale := Scale_init "Major" [2;2;1;2;2;2;1];
     minor_scale := Scale_init "Minor" [2;1;2;2;1;2;2];
     melodic_minor := Scale_init "Melodic Minor" [2;1;2;2;1;3;1];
     harmonic_minor := Scale_init "Harmonic Minor" [2;1;2;2;2;2;1] ]}.

(** The loop run when the module is loaded: every chord of the catalog is
    added to every scale, and the scale's dictionary is printed. *)
Definition module_load (fuel : nat) : res (heap * list event) :=
  for_each scales
    (λ scale '(h, out),
       h ← for_each catalog
             (λ chord h, '(h, _) ← call_add_chord fuel h scale chord; Ret h) h;
       s ← deref h scale;
       Ret (h, out ++ [PrintScale (name s) (chords s)]))
    (constructed, []).

(** [all_chordal_relationships] *)
Definition all_chordal_relationships (fuel : nat) (h : heap) (scale_1 scale_2 : loc)
    : res (heap * list event) :=
  for_each catalog
    (λ chord '(h, out),
       '(h, out') ← chordal_relationships fuel h scale_1 scale_2 chord;
       Ret (h, out ++ out'))
    (h, []).

(** ** The walk along a scale, in the words of the specification *)

(** The step of the scale at degree [d], degrees taken cyclically. *)
Definition degree_interval (ivs : list Z) (d : Z) : Z :=
  default 0 (ivs !! Z.to_nat (d `mod` Z.of_nat (length ivs))).

(** The running sum of [k] steps walked from degree [d]. *)
Fixpoint running_sum (ivs : list Z) (d : Z) (k : nat) : Z :=
  match k with
  | O => 0
  | S k' => degree_interval ivs d + running_sum ivs (d + 1) k'
  end.

(** Walking from [d], the running sum stays below the target [t] for the
    first [k - 1] steps. *)
Definition below_until (ivs : list Z) (d t : Z) (k : nat) : Prop :=
  (0 < k)%nat ∧ ∀ k', (0 < k' < k)%nat → running_sum ivs d k' < t.

(** The running sum equals the target at step [k], not having reached it
    before. *)
Definition matches_after (ivs : list Z) (d t : Z) (k : nat) : Prop :=
  below_until ivs d t k ∧ running_sum ivs d k = t.

(** The running sum strictly exceeds the target at step [k], before having
    equalled it. *)
Definition overshoots_after (ivs : list Z) (d t : Z) (k : nat) : Prop :=
  below_until ivs d t k ∧ running_sum ivs d k > t.

(** Every target is matched in turn, the running sum being reset to zero
    after each match and the walk continuing from the degree reached. *)
Inductive chord_fits (ivs : list Z) : Z → list Z → Prop :=
| fits_nil d : chord_fits ivs d []
| fits_cons d t k ts :
    matches_after ivs d t k →
    chord_fits ivs (d + Z.of_nat k) ts →
    chord_fits ivs d (t :: ts).

(** Some running sum strictly exceeds its target before equalling it. *)
Inductive chord_misfits (ivs : list Z) : Z → list Z → Prop :=
| misfits_here d t k ts :
    overshoots_after ivs d t k →
    chord_misfits ivs d (t :: ts)
| misfits_later d t k ts :
    matches_after ivs d t k →
    chord_misfits ivs (d + Z.of_nat k) ts →
    chord_misfits ivs d (t :: ts).

(** [sum(l)] *)
Definition py_sum (l : list Z) : Z := foldr Z.add 0 l.

(** The data model's scales: a non-empty sequence of positive steps. *)
Definition positive_scale (s : Scale) : Prop :=
  intervals s ≠ [] ∧ Forall (λ x, 0 < x) (intervals s).

(** The base notes at which the inner loops of [add_chord] end with
    [illegal_chord] unset, in the order of the outer loop. *)
Fixpoint fitting (fuel : nat) (s : Scale) (targets : list Z) (bases : list Z)
    : res (list Z) :=
  match bases with
  | [] => Ret []
  | base_note :: bases' =>
      '(_, illegal_chord) ← for_chord_intervals fuel s targets (base_note, false);
      rest ← fitting fuel s targets bases';
      Ret (if negb illegal_chord then base_note :: rest else rest)
  end.

(** ** Auxiliary notions of the proofs *)

(** The fuel is above every target of the list. *)
Definition fuel_covers (fuel : nat) (targets : list Z) : Prop :=
  Forall (λ t, (Z.to_nat t < fuel)%nat) targets.

(** A result, once returned, is returned with any larger fuel. *)
Definition fuel_mono {A} (f : nat → res A) : Prop :=
  ∀ n m a, (n ≤ m)%nat → f n = Ret a → f m = Ret a.

(** The state in which an iteration leaves the loop variables. *)
Definition flow_state {St} (r : flow St) : St :=
  match r with
  | Continue st => st
  | Break st => st
  end.

Definition accumulated (st : Z * Z * bool) : Z := st.1.1.

(** ** The program after the module is loaded *)

(** The scale objects once the module-level loop has run. *)
Definition loaded : heap :=
  {[ major_scale :=
       mkScale "Major" [2;2;1;2;2;2;1]
         {[ "Major" := {[0; 3; 4]}; "Minor" := {[1; 2; 5]}; "Diminished" := {[6]};
            "Augmented" := ∅; "Sus2" := {[0; 1; 3; 4; 5]}; "Sus4" := {[0; 1; 2; 4; 5]} ]};
     minor_scale :=
       mkScale "Minor" [2;1;2;2;1;2;2]
         {[ "Major" := {[2; 5; 6]}; "Minor" := {[0; 3; 4]}; "Diminished" := {[1]};
            "Augmented" := ∅; "Sus2" := {[0; 2; 3; 5; 6]}; "Sus4" := {[0; 2; 3; 4; 6]} ]};
     melodic_minor :=
       mkScale "Melodic Minor" [2;1;2;2;1;3;1]
         {[ "Major" := {[4; 5]}; "Minor" := {[0; 3; 5]}; "Diminished" := {[1; 3; 5; 6]};
            "Augmented" := {[2; 4; 6]}; "Sus2" := {[0; 3]}; "Sus4" := {[0; 4]} ]};
     harmonic_minor :=
       mkScale "Harmonic Minor" [2;1;2;2;2;2;1]
         {[ "Major" := {[3; 4]}; "Minor" := {[0; 1]}; "Diminished" := {[5; 6]};
            "Augmented" := {[2; 4; 6]}; "Sus2" := {[0; 3; 4]}; "Sus4" := {[0; 1; 4]} ]} ]}.

(** The pairwise differences among the members of a set, each scaled by 7
    modulo 12. *)
Definition difference_fifths (xs : gset Z) : gset Z :=
  list_to_set (x1 ← elements xs; x2 ← elements xs; [((x2 - x1) * 7) `mod` 12]).

(** The line printed for the Major chord on the first degree of the Major
    scale against the one on its fourth degree. *)
Definition major_I_IV_line : string :=
  "Distance between Major to Major (via Major chord at 1 for the first scale to 4 of the second scale) (Looking where Scale 2 is relative to Scale 1) is 11 fifths right, or 1 fourths left or, or semitones right." +:+ newline.

(** ** Reading an output *)

(** The chord names on the summary lines of an output, in order. *)
Definition summaries (out : list event) : list string :=
  omap (λ e, match e with PrintReach n _ => Some n | _ => None end) out.

(** The output event is a printed relationship line. *)
Definition is_line (e : event) : Prop := ∃ text, e = Print text.

(** The value of [interval_between] where it returns one. *)
Definition distance (s : Scale) (i j : Z) : Z :=
  match interval_between s i j with
  | Ret v => v
  | _ => 0
  end.

(** [(key_distance * 7) % 12] for a pair of roots. *)
Definition fifths_right (s : Scale) (root_1 root_2 : Z) : Z :=
  ((distance s 0 root_2 - distance s 0 root_1) * 7) `mod` 12.

(** * Properties *)

(** ** The result monad *)

Lemma bind_Ret {A B} (m : res A) (f : A → res B) b :
  m ≫= f = Ret b → ∃ a, m = Ret a ∧ f a = Ret b.
Proof. destruct m as [a| |]; simpl; intros H; try discriminate. eauto. Qed.

Lemma py_mod_nonzero a b : b ≠ 0 → py_mod a b = Ret (a `mod` b).
Proof. intros Hb. unfold py_mod. by destruct (Z.eqb_spec b 0). Qed.

(** ** Degrees and running sums *)

Section walk.
Variable s : Scale.
Hypothesis Hne : intervals s ≠ [].
Hypothesis Hpos : Forall (λ x, 0 < x) (intervals s).

Let ivs := intervals s.
Let N := num_notes s.

Lemma num_notes_pos : 0 < N.
Proof using Hne.
  unfold N, num_notes.
  destruct (decide (length (intervals s) = 0%nat)) as [H%nil_length_inv|]; [done|lia].
Qed.

Lemma degree_lookup d :
  ∃ x, ivs !! Z.to_nat (d `mod` N) = Some x ∧ degree_interval ivs d = x.
Proof using Hne.
  pose proof num_notes_pos as HN.
  pose proof (Z.mod_pos_bound d N HN) as Hb.
  destruct (lookup_lt_is_Some_2 ivs (Z.to_nat (d `mod` N))) as [x Hx].
  { unfold N, num_notes, ivs in *. lia. }
  exists x. split; [done|].
  unfold degree_interval. fold ivs N. unfold N, num_notes, ivs in *. by rewrite Hx.
Qed.

Lemma degree_interval_pos d : 0 < degree_interval ivs d.
Proof using Hne Hpos.
  destruct (degree_lookup d) as (x & Hx & ->).
  rewrite Forall_lookup in Hpos. by eapply Hpos.
Qed.

Lemma degree_interval_cong d1 d2 :
  d1 `mod` N = d2 `mod` N → degree_interval ivs d1 = degree_interval ivs d2.
Proof using Type. unfold degree_interval, N, num_notes, ivs. by intros ->. Qed.

Lemma py_index_degree i :
  0 ≤ i < N → py_index ivs i = Ret (degree_interval ivs i).
Proof using Hne.
  intros Hi. destruct (degree_lookup i) as (x & Hx & ->).
  rewrite Z.mod_small in Hx by done.
  unfold py_index. fold N.
  replace (Z.of_nat (length ivs)) with N by done.
  destruct (Z.ltb_spec i 0); [lia|].
  destruct (Z.ltb_spec i 0); [lia|].
  destruct (Z.leb_spec N i); [lia|]. simpl. by rewrite Hx.
Qed.

Lemma running_sum_cong k : ∀ d1 d2,
  d1 `mod` N = d2 `mod` N → running_sum ivs d1 k = running_sum ivs d2 k.
Proof using Hne.
  induction k as [|k IH]; intros d1 d2 Hd; simpl; [done|].
  rewrite (degree_interval_cong d1 d2 Hd). f_equal. apply IH.
  rewrite (Z.add_mod d1), (Z.add_mod d2), Hd by (pose proof num_notes_pos; lia). done.
Qed.

Lemma running_sum_mod d k : running_sum ivs (d `mod` N) k = running_sum ivs d k.
Proof using Hne. apply running_sum_cong, Z.mod_mod. pose proof num_notes_pos; lia. Qed.

Lemma running_sum_snoc k : ∀ d,
  running_sum ivs d (S k) = running_sum ivs d k + degree_interval ivs (d + Z.of_nat k).
Proof using Type.
  induction k as [|k IH]; intros d.
  - simpl running_sum. replace (d + Z.of_nat 0) with d by lia. lia.
  - change (running_sum ivs d (S (S k)))
      with (degree_interval ivs d + running_sum ivs (d + 1) (S k)).
    rewrite IH. simpl running_sum.
    replace (d + 1 + Z.of_nat k) with (d + Z.of_nat (S k)) by lia. lia.
Qed.

Lemma running_sum_lower k : ∀ d, Z.of_nat k ≤ running_sum ivs d k.
Proof using Hne Hpos.
  induction k as [|k IH]; intros d; simpl running_sum; [lia|].
  pose proof (degree_interval_pos d). pose proof (IH (d + 1)). lia.
Qed.

Lemma running_sum_increasing d k : running_sum ivs d k < running_sum ivs d (S k).
Proof using Hne Hpos. rewrite running_sum_snoc. pose proof (degree_interval_pos (d + Z.of_nat k)). lia. Qed.

Lemma running_sum_monotone d k1 k2 :
  (k1 < k2)%nat → running_sum ivs d k1 < running_sum ivs d k2.
Proof using Hne Hpos.
  induction 1 as [|k2 _ IH]; [apply running_sum_increasing|].
  pose proof (running_sum_increasing d k2). lia.
Qed.

(** *** The [while True] loop *)

Lemma while_body_eq t acc i ill :
  0 ≤ i < N →
  while_body s t (acc, i, ill) =
    let acc' := acc + degree_interval ivs i in
    let i' := (i + 1) `mod` N in
    Ret (if acc' =? t then Break (acc', i', ill)
         else if acc' >? t then Break (acc', i', true)
         else Continue (acc', i', ill)).
Proof using Hne.
  intros Hi. pose proof num_notes_pos as HN.
  unfold while_body. fold ivs. rewrite py_index_degree by done. simpl.
  unfold py_mod. fold N. destruct (Z.eqb_spec N 0) as [?|_]; [lia|]. simpl.
  destruct (_ =? _); [done|]. destruct (_ >? _); done.
Qed.

(** With enough fuel the loop stops at the first step [k] at which the
    running sum reaches the target. *)
Lemma while_true_walk t fuel : ∀ acc i ill,
  0 ≤ i < N →
  (Z.to_nat (t - acc) < fuel)%nat →
  ∃ k, (0 < k)%nat ∧
       (∀ k', (0 < k' < k)%nat → acc + running_sum ivs i k' < t) ∧
       t ≤ acc + running_sum ivs i k ∧
       while_true fuel s t (acc, i, ill) =
         Ret (acc + running_sum ivs i k, (i + Z.of_nat k) `mod` N,
              ill || (acc + running_sum ivs i k >? t)).
Proof using Hne Hpos.
  pose proof num_notes_pos as HN.
  induction fuel as [|fuel IH]; intros acc i ill Hi Hfuel; [lia|].
  cbn [while_true]. rewrite while_body_eq by done. cbn zeta. cbn [mbind res_bind].
  pose proof (degree_interval_pos i) as Hx.
  assert (Hone : running_sum ivs i 1 = degree_interval ivs i) by (simpl; lia).
  destruct (Z.eqb_spec (acc + degree_interval ivs i) t) as [Heq|Hneq].
  { exists 1%nat. rewrite Hone. split; [lia|]. split; [intros; lia|]. split; [lia|].
    destruct (Z.gtb_spec (acc + degree_interval ivs i) t); [lia|].
    by rewrite orb_false_r. }
  destruct (Z.gtb_spec (acc + degree_interval ivs i) t) as [Hgt|Hle].
  { exists 1%nat. rewrite Hone. split; [lia|]. split; [intros; lia|]. split; [lia|].
    destruct (Z.gtb_spec (acc + degree_interval ivs i) t); [|lia].
    by rewrite orb_true_r. }
  destruct (IH (acc + degree_interval ivs i) ((i + 1) `mod` N) ill)
    as (k & Hk & Hbelow & Hreach & Hrun).
  { apply Z.mod_pos_bound; lia. }
  { lia. }
  rewrite running_sum_mod in Hrun, Hreach by done.
  exists (S k). split; [lia|]. split; [|split].
  - intros k' Hk'. destruct k' as [|k']; [lia|]. simpl running_sum.
    destruct k' as [|k'].
    + simpl. lia.
    + specialize (Hbelow (S k')). rewrite running_sum_mod in Hbelow by done.
      fold ivs. lia.
  - simpl running_sum. fold ivs. lia.
  - rewrite Hrun. simpl running_sum. fold ivs. rewrite !Z.add_assoc.
    do 2 f_equal. f_equal.
    rewrite Zplus_mod_idemp_l. f_equal. lia.
Qed.

(** *** The walk of the specification *)

Lemma below_until_cong d1 d2 t k :
  d1 `mod` N = d2 `mod` N → below_until ivs d1 t k → below_until ivs d2 t k.
Proof using Hne.
  intros Hd [Hk Hb]. split; [done|]. intros k' Hk'.
  rewrite <- (running_sum_cong k' d1 d2 Hd). auto.
Qed.

Lemma matches_after_cong d1 d2 t k :
  d1 `mod` N = d2 `mod` N → matches_after ivs d1 t k → matches_after ivs d2 t k.
Proof using Hne.
  intros Hd [Hb Hr]. split; [by eapply below_until_cong|].
  by rewrite <- (running_sum_cong k d1 d2 Hd).
Qed.

Lemma overshoots_after_cong d1 d2 t k :
  d1 `mod` N = d2 `mod` N → overshoots_after ivs d1 t k → overshoots_after ivs d2 t k.
Proof using Hne.
  intros Hd [Hb Hr]. split; [by eapply below_until_cong|].
  by rewrite <- (running_sum_cong k d1 d2 Hd).
Qed.

Lemma shift_cong d1 d2 k :
  d1 `mod` N = d2 `mod` N → (d1 + k) `mod` N = (d2 + k) `mod` N.
Proof using Hne.
  pose proof num_notes_pos. intros Hd.
  rewrite (Z.add_mod d1), (Z.add_mod d2), Hd by lia. done.
Qed.

Lemma chord_fits_cong ts : ∀ d1 d2,
  d1 `mod` N = d2 `mod` N → chord_fits ivs d1 ts → chord_fits ivs d2 ts.
Proof using Hne.
  induction ts as [|t ts IH]; intros d1 d2 Hd Hfit; [constructor|].
  inversion Hfit as [|? ? k ? Hm Hrest]; subst.
  apply fits_cons with k; [by eapply matches_after_cong|].
  eapply IH; [|exact Hrest]. by apply shift_cong.
Qed.

Lemma chord_misfits_cong ts : ∀ d1 d2,
  d1 `mod` N = d2 `mod` N → chord_misfits ivs d1 ts → chord_misfits ivs d2 ts.
Proof using Hne.
  induction ts as [|t ts IH]; intros d1 d2 Hd Hmis; [inversion Hmis|].
  inversion Hmis as [? ? k ? Ho|? ? k ? Hm Hrest]; subst.
  - apply misfits_here with k. by eapply overshoots_after_cong.
  - apply misfits_later with k; [by eapply matches_after_cong|].
    eapply IH; [|exact Hrest]. by apply shift_cong.
Qed.
End walk.

(** The first step at which a running sum reaches its target is unique. *)
Lemma first_reach_unique ivs d t k1 k2 :
  below_until ivs d t k1 → t ≤ running_sum ivs d k1 →
  below_until ivs d t k2 → t ≤ running_sum ivs d k2 →
  k1 = k2.
Proof.
  intros [Hk1 Hb1] Hr1 [Hk2 Hb2] Hr2.
  destruct (lt_eq_lt_dec k1 k2) as [[Hlt|Heq]|Hgt]; [|done|].
  - specialize (Hb2 k1). lia.
  - specialize (Hb1 k2). lia.
Qed.

Lemma match_overshoot_exclusive ivs d t k1 k2 :
  matches_after ivs d t k1 → overshoots_after ivs d t k2 → False.
Proof.
  intros [Hb1 Hr1] [Hb2 Hr2].
  assert (k1 = k2) by (eapply first_reach_unique; eauto; lia). subst. lia.
Qed.

Lemma matches_after_unique ivs d t k1 k2 :
  matches_after ivs d t k1 → matches_after ivs d t k2 → k1 = k2.
Proof. intros [Hb1 Hr1] [Hb2 Hr2]. eapply first_reach_unique; eauto; lia. Qed.

(** A walk cannot both fit and misfit. *)
Lemma fits_misfits_exclusive ivs ts : ∀ d,
  chord_fits ivs d ts → chord_misfits ivs d ts → False.
Proof.
  induction ts as [|t ts IH]; intros d Hfit Hmis; [inversion Hmis|].
  inversion Hfit as [|? ? k ? Hm Hrest]; subst.
  inversion Hmis as [? ? k' ? Ho|? ? k' ? Hm' Hrest']; subst.
  - eapply match_overshoot_exclusive; eauto.
  - assert (k = k') by (eapply matches_after_unique; eauto). subst. eauto.
Qed.

(** ** The inner [for] loop of [add_chord] *)

Lemma enough_fuel_covers chord fuel :
  (enough_fuel chord ≤ fuel)%nat → fuel_covers fuel (chord_intervals chord).
Proof.
  unfold enough_fuel, fuel_covers. generalize (chord_intervals chord) as ts.
  induction ts as [|t ts IH]; intros Hfuel; constructor; simpl in Hfuel; [lia|].
  apply IH. lia.
Qed.

Lemma for_chord_intervals_cons fuel s t ts st :
  for_chord_intervals fuel s (t :: ts) st =
    '(_, i, illegal_chord) ← while_true fuel s t (0, st.1, st.2);
    for_chord_intervals fuel s ts (i, illegal_chord).
Proof.
  destruct st as [i ill]. unfold for_chord_intervals. cbn [for_each fst snd].
  destruct (while_true fuel s t (0, i, ill)) as [[[acc i'] ill']| |]; done.
Qed.

Section inner_loop.
Variable s : Scale.
Hypothesis Hscale : positive_scale s.
Variable fuel : nat.

Let ivs := intervals s.
Let N := num_notes s.

Lemma for_chord_intervals_walk ts : ∀ i ill,
  0 ≤ i < N →
  fuel_covers fuel ts →
  ∃ i' ill',
    for_chord_intervals fuel s ts (i, ill) = Ret (i', ill') ∧
    0 ≤ i' < N ∧
    (ill' = false ↔ ill = false ∧ chord_fits ivs i ts) ∧
    (ill' = true ↔ ill = true ∨ chord_misfits ivs i ts).
Proof.
  pose proof (num_notes_pos s (proj1 Hscale)) as HN. fold N in HN.
  induction ts as [|t ts IH]; intros i ill Hi Hfuel.
  { exists i, ill. split; [done|]. split; [done|]. split.
    - split; [intros ->; split; [done|constructor]|by intros [-> _]].
    - split; [by left|]. intros [?|Hmis]; [done|inversion Hmis]. }
  inversion Hfuel as [|? ? Ht Hts]; subst.
  destruct (while_true_walk s (proj1 Hscale) (proj2 Hscale) t fuel 0 i ill Hi) as (k & Hk & Hbelow & Hreach & Hrun).
  { by rewrite Z.sub_0_r. }
  fold ivs N in Hbelow, Hreach, Hrun.
  rewrite for_chord_intervals_cons. cbn [fst snd]. rewrite Hrun. cbn [mbind res_bind].
  rewrite Z.add_0_l in *.
  assert (Hb : below_until ivs i t k).
  { split; [done|]. intros k' Hk'. specialize (Hbelow k' Hk'). lia. }
  assert (Hi1 : 0 ≤ (i + Z.of_nat k) `mod` N < N) by (apply Z.mod_pos_bound; lia).
  assert (Hmod : ((i + Z.of_nat k) `mod` N) `mod` N = (i + Z.of_nat k) `mod` N)
    by (apply Z.mod_mod; lia).
  destruct (IH ((i + Z.of_nat k) `mod` N) (ill || (running_sum ivs i k >? t)) Hi1 Hts)
    as (i' & ill' & Hloop & Hi' & Hfit & Hmis).
  exists i', ill'. split; [done|]. split; [done|].
  destruct (Z.gtb_spec (running_sum ivs i k) t) as [Hgt|Hle].
  - (* the running sum overshoots the target *)
    rewrite orb_true_r in Hfit, Hmis.
    assert (Ho : overshoots_after ivs i t k) by (split; [done|lia]).
    assert (ill' = true) as -> by (apply Hmis; by left).
    split; split; try done.
    + intros [_ Hf]. inversion Hf as [|? ? k2 ? Hm _]; subst.
      exfalso. eapply match_overshoot_exclusive; eauto.
    + intros _. right. by eapply misfits_here.
  - (* the running sum equals the target *)
    rewrite orb_false_r in Hfit, Hmis.
    assert (Hm : matches_after ivs i t k) by (split; [done|lia]).
    split.
    + rewrite Hfit. split; intros [Hill Hf]; (split; [done|]).
      * apply fits_cons with k; [done|].
        eapply (chord_fits_cong s (proj1 Hscale)); [|exact Hf]. done.
      * inversion Hf as [|? ? k2 ? Hm2 Hrest]; subst.
        assert (k2 = k) as -> by (eapply matches_after_unique; eauto).
        eapply (chord_fits_cong s (proj1 Hscale)); [|exact Hrest]. done.
    + rewrite Hmis. split; (intros [Hill|Hf]; [by left|right]).
      * apply misfits_later with k; [done|].
        eapply (chord_misfits_cong s (proj1 Hscale)); [|exact Hf]. done.
      * inversion Hf as [? ? k2 ? Ho|? ? k2 ? Hm2 Hrest]; subst.
        { exfalso. eapply match_overshoot_exclusive; eauto. }
        assert (k2 = k) as -> by (eapply matches_after_unique; eauto).
        eapply (chord_misfits_cong s (proj1 Hscale)); [|exact Hrest]. done.
Qed.
End inner_loop.

(** ** The outer loop of [add_chord] *)

(** The loops read the scale's intervals only. *)
Lemma while_true_set_chords fuel s cs t : ∀ st,
  while_true fuel (set_chords s cs) t st = while_true fuel s t st.
Proof.
  induction fuel as [|fuel IH]; intros st; [done|].
  cbn [while_true]. change (while_body (set_chords s cs) t st) with (while_body s t st).
  destruct (while_body s t st) as [[st'|st']| |]; cbn [mbind res_bind]; auto.
Qed.

Lemma for_chord_intervals_set_chords fuel s cs ts : ∀ st,
  for_chord_intervals fuel (set_chords s cs) ts st = for_chord_intervals fuel s ts st.
Proof.
  induction ts as [|t ts IH]; intros st; [done|].
  rewrite !for_chord_intervals_cons, while_true_set_chords.
  destruct (while_true fuel s t _) as [[[acc i] ill]| |]; cbn [mbind res_bind]; auto.
Qed.

Lemma fitting_set_chords fuel s cs ts bases :
  fitting fuel (set_chords s cs) ts bases = fitting fuel s ts bases.
Proof.
  induction bases as [|b bases IH]; [done|].
  cbn [fitting]. by rewrite for_chord_intervals_set_chords, IH.
Qed.

Lemma for_base_notes_cons fuel chord b bases s chord_added :
  for_base_notes fuel chord (b :: bases) (s, chord_added) =
    '(_, illegal_chord) ← for_chord_intervals fuel s (chord_intervals chord) (b, false);
    if negb illegal_chord then
      roots ← py_getitem (chords s) (chord_name chord);
      for_base_notes fuel chord bases
        (set_chords s (<[chord_name chord := roots ∪ {[b]}]> (chords s)), true)
    else for_base_notes fuel chord bases (s, chord_added).
Proof.
  unfold for_base_notes. cbn [for_each].
  destruct (for_chord_intervals fuel s (chord_intervals chord) (b, false))
    as [[i ill]| |]; cbn [mbind res_bind]; [|done..].
  destruct ill; cbn [negb]; [done|].
  destruct (py_getitem (chords s) (chord_name chord)); done.
Qed.

Lemma for_base_notes_fitting fuel chord bases : ∀ s roots chord_added,
  chords s !! chord_name chord = Some roots →
  for_base_notes fuel chord bases (s, chord_added) =
    fitted ← fitting fuel s (chord_intervals chord) bases;
    Ret (set_chords s (<[chord_name chord := roots ∪ list_to_set fitted]> (chords s)),
         chord_added || bool_decide (fitted ≠ [])).
Proof.
  induction bases as [|b bases IH]; intros s roots added Hroots.
  { cbn. rewrite (right_id_L ∅ (∪)), insert_id, orb_false_r by done. by destruct s. }
  rewrite for_base_notes_cons. cbn [fitting].
  destruct (for_chord_intervals fuel s (chord_intervals chord) (b, false))
    as [[i ill]| |]; cbn [mbind res_bind]; [|done..].
  destruct ill; cbn [negb].
  - rewrite (IH s roots added Hroots).
    destruct (fitting fuel s _ bases) as [rest| |]; done.
  - unfold py_getitem. rewrite Hroots. cbn [mbind res_bind].
    erewrite IH; [|apply lookup_insert_eq]. rewrite fitting_set_chords.
    destruct (fitting fuel s _ bases) as [rest| |]; cbn [mbind res_bind]; [|done..].
    cbn [chords set_chords]. rewrite insert_insert_eq.
    rewrite orb_true_l, bool_decide_true, orb_true_r by done.
    rewrite list_to_set_cons, (assoc_L (∪)). done.
Qed.

(** [add_chord] stores the fitting base notes under the chord's name and
    returns whether there is one. *)
Lemma add_chord_fitting fuel s chord :
  add_chord fuel s chord =
    fitted ← fitting fuel s (chord_intervals chord) (py_range 0 (num_notes s));
    Ret (set_chords s (<[chord_name chord := list_to_set fitted]> (chords s)),
         bool_decide (fitted ≠ [])).
Proof.
  unfold add_chord. cbn zeta.
  erewrite for_base_notes_fitting; [|apply lookup_insert_eq].
  rewrite fitting_set_chords. change (num_notes (set_chords s _)) with (num_notes s).
  destruct (fitting fuel s _ _) as [fitted| |]; cbn [mbind res_bind]; [|done..].
  cbn [chords set_chords]. by rewrite insert_insert_eq, (left_id_L ∅ (∪)).
Qed.

Lemma elem_of_py_range a b x : x ∈ py_range a b ↔ a ≤ x < b.
Proof. unfold py_range. rewrite elem_of_seqZ. lia. Qed.

Section fitting_engine.
Variable s : Scale.
Hypothesis Hscale : positive_scale s.
Variable chord : Chord.
Variable fuel : nat.
Hypothesis Hfuel : (enough_fuel chord ≤ fuel)%nat.

Let ivs := intervals s.
Let N := num_notes s.
Let targets := chord_intervals chord.

(** From every degree of the scale the walk either fits or misfits. *)
Lemma fits_or_misfits i :
  0 ≤ i < N → chord_fits ivs i targets ∨ chord_misfits ivs i targets.
Proof.
  intros Hi.
  destruct (for_chord_intervals_walk s Hscale fuel targets i false Hi)
    as (i' & ill' & _ & _ & Hfit & Hmis); [by apply enough_fuel_covers|].
  destruct ill'; [right|left].
  - destruct Hmis as [[?|?] _]; done.
  - by apply Hfit.
Qed.

Lemma fitting_walk bases :
  (∀ b, b ∈ bases → 0 ≤ b < N) →
  ∃ fitted, fitting fuel s targets bases = Ret fitted ∧
            ∀ r, r ∈ fitted ↔ r ∈ bases ∧ chord_fits ivs r targets.
Proof.
  induction bases as [|b bases IH]; intros Hbases.
  { exists []. split; [done|]. intros r. rewrite !elem_of_nil. tauto. }
  destruct IH as (rest & Hrest & Hin); [intros; apply Hbases; by right|].
  destruct (for_chord_intervals_walk s Hscale fuel targets b false)
    as (i' & ill' & Hloop & _ & Hfit & _);
    [apply Hbases; by left|by apply enough_fuel_covers|].
  cbn [fitting]. rewrite Hloop, Hrest. cbn [mbind res_bind].
  eexists. split; [done|]. intros r.
  destruct ill'; cbn [negb].
  - rewrite Hin, elem_of_cons. split; [tauto|].
    intros [[->|?] Hf]; [|done]. by destruct Hfit as [_ Hfit]; specialize (Hfit (conj eq_refl Hf)).
  - rewrite !elem_of_cons, Hin. split.
    + intros [->|[? ?]]; [|tauto]. split; [by left|]. by apply Hfit.
    + tauto.
Qed.

(** The result of [add_chord] on a scale of positive intervals. *)
Lemma add_chord_walk :
  ∃ roots b,
    add_chord fuel s chord =
      Ret (set_chords s (<[chord_name chord := roots]> (chords s)), b) ∧
    (∀ r, r ∈ roots ↔ 0 ≤ r < N ∧ chord_fits ivs r targets) ∧
    (b = true ↔ roots ≠ ∅).
Proof.
  destruct (fitting_walk (py_range 0 N)) as (fitted & Hfitted & Hin).
  { intros b. by rewrite elem_of_py_range. }
  rewrite add_chord_fitting. fold N targets. rewrite Hfitted. cbn [mbind res_bind].
  eexists _, _. split; [done|]. split.
  - intros r. by rewrite elem_of_list_to_set, Hin, elem_of_py_range.
  - rewrite bool_decide_eq_true. destruct fitted as [|r rest]; [by cbn|].
    split; [|done]. intros _. apply (non_empty_inhabited_L r).
    rewrite elem_of_list_to_set, elem_of_cons. by left.
Qed.
End fitting_engine.

(** C1: on a scale of non-empty positive intervals, [add_chord] stores under
    the chord's name exactly the degrees [r] of the scale from which every
    target is matched by a running sum reset after each match; a degree is left
    out exactly when some running sum exceeds its target before equalling it;
    and the call returns [true] exactly when the stored set is not empty. *)
Theorem add_chord_stores_fitting_roots (s : Scale) (chord : Chord) (fuel : nat) :
  positive_scale s →
  (enough_fuel chord ≤ fuel)%nat →
  ∃ roots b,
    add_chord fuel s chord =
      Ret (set_chords s (<[chord_name chord := roots]> (chords s)), b) ∧
    (∀ r, r ∈ roots ↔
          0 ≤ r < num_notes s ∧ chord_fits (intervals s) r (chord_intervals chord)) ∧
    (∀ r, 0 ≤ r < num_notes s →
          (r ∉ roots ↔ chord_misfits (intervals s) r (chord_intervals chord))) ∧
    (b = true ↔ roots ≠ ∅).
Proof.
  intros Hscale Hfuel.
  destruct (add_chord_walk s Hscale chord fuel Hfuel) as (roots & b & Hrun & Hroots & Hb).
  exists roots, b. split; [done|]. split; [done|]. split; [|done].
  intros r Hr. rewrite Hroots. split.
  - intros Hno.
    destruct (fits_or_misfits s Hscale chord fuel Hfuel r Hr) as [Hf|Hm]; [|done].
    destruct Hno. done.
  - intros Hm [_ Hf]. eapply fits_misfits_exclusive; eauto.
Qed.

Lemma major_intervals_positive nm cs :
  positive_scale (mkScale nm [2;2;1;2;2;2;1] cs).
Proof. split; [done|]. cbn. repeat constructor. Qed.

Lemma add_chord_stores_fitting_roots_witness :
  ∃ roots b,
    add_chord 5 (Scale_init "Major" [2;2;1;2;2;2;1]) major_chord =
      Ret (set_chords (Scale_init "Major" [2;2;1;2;2;2;1])
             (<["Major" := roots]> ∅), b) ∧
    (∀ r, r ∈ roots ↔ 0 ≤ r < 7 ∧ chord_fits [2;2;1;2;2;2;1] r [4;3]) ∧
    (∀ r, 0 ≤ r < 7 → (r ∉ roots ↔ chord_misfits [2;2;1;2;2;2;1] r [4;3])) ∧
    (b = true ↔ roots ≠ ∅).
Proof.
  apply (add_chord_stores_fitting_roots (Scale_init "Major" [2;2;1;2;2;2;1]) major_chord 5).
  - apply major_intervals_positive.
  - vm_compute. lia.
Defined.

(** ** More fuel never changes a result *)

Lemma fuel_mono_const {A} (m : res A) : fuel_mono (λ _, m).
Proof. by intros n m' a _ H. Qed.

Lemma fuel_mono_bind {A B} (f : nat → res A) (g : nat → A → res B) :
  fuel_mono f → (∀ a, fuel_mono (λ n, g n a)) → fuel_mono (λ n, f n ≫= g n).
Proof.
  intros Hf Hg n m b Hle H. apply bind_Ret in H as (a & Ha & Hb).
  rewrite (Hf n m a Hle Ha). cbn. by apply (Hg a n m).
Qed.

Lemma for_each_mono {A St} (body : nat → A → St → res St) xs :
  (∀ x st, fuel_mono (λ n, body n x st)) →
  ∀ st, fuel_mono (λ n, for_each xs (body n) st).
Proof.
  intros Hbody. induction xs as [|x xs IH]; intros st; cbn [for_each].
  - apply fuel_mono_const.
  - apply (fuel_mono_bind (λ n, body n x st) (λ n, for_each xs (body n))); auto.
Qed.

Lemma while_true_mono s t : ∀ st, fuel_mono (λ fuel, while_true fuel s t st).
Proof.
  intros st n. revert st. induction n as [|n IH]; intros st m a Hle H; [done|].
  destruct m as [|m]; [lia|]. cbn [while_true] in *.
  destruct (while_body s t st) as [[st'|st']| |]; cbn [mbind res_bind] in *; try done.
  apply IH; [lia|done].
Qed.

Lemma for_chord_intervals_mono s ts st :
  fuel_mono (λ fuel, for_chord_intervals fuel s ts st).
Proof.
  unfold for_chord_intervals.
  apply (for_each_mono (λ fuel t '(i, ill),
           '(_, i, ill) ← while_true fuel s t (0, i, ill); Ret (i, ill))).
  intros t [i ill].
  apply (fuel_mono_bind (λ fuel, while_true fuel s t (0, i, ill)) (λ _ '(_, i, ill), Ret (i, ill))).
  - apply while_true_mono.
  - intros a. apply fuel_mono_const.
Qed.

Lemma fitting_mono s ts bases : fuel_mono (λ fuel, fitting fuel s ts bases).
Proof.
  induction bases as [|b bases IH]; cbn [fitting]; [apply fuel_mono_const|].
  apply (fuel_mono_bind (λ fuel, for_chord_intervals fuel s ts (b, false))
           (λ fuel '(_, ill), rest ← fitting fuel s ts bases;
                              Ret (if negb ill then b :: rest else rest))).
  - apply for_chord_intervals_mono.
  - intros [i ill].
    apply (fuel_mono_bind (λ fuel, fitting fuel s ts bases)
             (λ _ rest, Ret (if negb ill then b :: rest else rest))); [done|].
    intros a. apply fuel_mono_const.
Qed.

Lemma add_chord_mono s chord : fuel_mono (λ fuel, add_chord fuel s chord).
Proof.
  intros n m a Hle. rewrite !add_chord_fitting. revert n m a Hle.
  apply (fuel_mono_bind (λ fuel, fitting fuel s _ _) (λ _ fitted, Ret _)).
  - apply fitting_mono.
  - intros a. apply fuel_mono_const.
Qed.

Lemma has_chord_mono s chord : fuel_mono (λ fuel, has_chord fuel s chord).
Proof.
  unfold has_chord. destruct (chords s !! chord_name chord) as [roots|].
  - destruct (_ >? _); [apply fuel_mono_const|].
    destruct (_ =? _); [apply fuel_mono_const|]. apply add_chord_mono.
  - apply add_chord_mono.
Qed.

Lemma call_has_chord_mono h scale chord :
  fuel_mono (λ fuel, call_has_chord fuel h scale chord).
Proof.
  unfold call_has_chord. destruct (deref h scale) as [s| |]; cbn [mbind res_bind];
    [|apply fuel_mono_const..].
  apply (fuel_mono_bind (λ fuel, has_chord fuel s chord)
           (λ _ '(s, b), Ret (<[scale := s]> h, b))).
  - apply has_chord_mono.
  - intros a. apply fuel_mono_const.
Qed.

Lemma call_add_chord_mono h scale chord :
  fuel_mono (λ fuel, call_add_chord fuel h scale chord).
Proof.
  unfold call_add_chord. destruct (deref h scale) as [s| |]; cbn [mbind res_bind];
    [|apply fuel_mono_const..].
  apply (fuel_mono_bind (λ fuel, add_chord fuel s chord)
           (λ _ '(s, b), Ret (<[scale := s]> h, b))).
  - apply add_chord_mono.
  - intros a. apply fuel_mono_const.
Qed.

Lemma chordal_relationships_mono h scale_1 scale_2 chord :
  fuel_mono (λ fuel, chordal_relationships fuel h scale_1 scale_2 chord).
Proof.
  unfold chordal_relationships. cbn zeta.
  apply (fuel_mono_bind (λ fuel, call_has_chord fuel h scale_1 chord)).
  { apply call_has_chord_mono. }
  intros [h1 b1].
  apply (fuel_mono_bind
           (λ fuel, if b1 then call_has_chord fuel h1 scale_2 chord else Ret (h1, false))).
  { destruct b1; [apply call_has_chord_mono|apply fuel_mono_const]. }
  intros [h2 b2]. apply fuel_mono_const.
Qed.

Lemma module_load_mono : fuel_mono module_load.
Proof.
  unfold module_load. apply for_each_mono. intros scale [h out].
  apply (fuel_mono_bind
           (λ fuel, for_each catalog
                      (λ chord h, '(h, _) ← call_add_chord fuel h scale chord; Ret h) h)).
  - apply (for_each_mono (λ fuel chord h,
             '(h, _) ← call_add_chord fuel h scale chord; Ret h)).
    intros chord h'.
    apply (fuel_mono_bind (λ fuel, call_add_chord fuel h' scale chord) (λ _ '(h, _), Ret h)).
    + apply call_add_chord_mono.
    + intros a. apply fuel_mono_const.
  - intros a. apply fuel_mono_const.
Qed.

(** ** Termination of [add_chord] *)

(** C10: on a scale of non-empty positive intervals [add_chord] terminates
    for every chord: one iteration of the [while] loop strictly increases the
    accumulated interval, and the loop ends with the accumulated interval
    equal to its target, or above it with [illegal_chord] set. *)
Theorem add_chord_terminates (s : Scale) (chord : Chord) :
  positive_scale s →
  (∀ fuel, (enough_fuel chord ≤ fuel)%nat → returns (add_chord fuel s chord)) ∧
  (∀ t acc i ill, 0 ≤ i < num_notes s →
     (∃ r, while_body s t (acc, i, ill) = Ret r ∧ acc < accumulated (flow_state r)) ∧
     (∀ fuel, (Z.to_nat (t - acc) < fuel)%nat →
        ∃ acc' i' ill',
          while_true fuel s t (acc, i, ill) = Ret (acc', i', ill') ∧
          (acc' = t ∧ ill' = ill ∨ acc' > t ∧ ill' = true))).
Proof.
  intros Hscale. split.
  - intros fuel Hfuel.
    destruct (add_chord_walk s Hscale chord fuel Hfuel) as (roots & b & Hrun & _).
    rewrite Hrun. by eexists.
  - intros t acc i ill Hi. split.
    + rewrite (while_body_eq s (proj1 Hscale)) by done. cbn zeta.
      pose proof (degree_interval_pos s (proj1 Hscale) (proj2 Hscale) i) as Hx.
      eexists. split; [done|].
      destruct (_ =? _); [cbn; lia|]. destruct (_ >? _); cbn; lia.
    + intros fuel Hfuel.
      destruct (while_true_walk s (proj1 Hscale) (proj2 Hscale) t fuel acc i ill Hi Hfuel)
        as (k & _ & _ & Hreach & Hrun).
      rewrite Hrun. eexists _, _, _. split; [done|].
      destruct (Z.gtb_spec (acc + running_sum (intervals s) i k) t).
      * right. rewrite orb_true_r. split; [lia|done].
      * left. rewrite orb_false_r. split; [lia|done].
Qed.

Lemma add_chord_terminates_witness :
  (∀ fuel, (enough_fuel major_chord ≤ fuel)%nat →
     returns (add_chord fuel (Scale_init "Major" [2;2;1;2;2;2;1]) major_chord)) ∧
  (∀ t acc i ill, 0 ≤ i < num_notes (Scale_init "Major" [2;2;1;2;2;2;1]) →
     (∃ r, while_body (Scale_init "Major" [2;2;1;2;2;2;1]) t (acc, i, ill) = Ret r ∧
           acc < accumulated (flow_state r)) ∧
     (∀ fuel, (Z.to_nat (t - acc) < fuel)%nat →
        ∃ acc' i' ill',
          while_true fuel (Scale_init "Major" [2;2;1;2;2;2;1]) t (acc, i, ill) =
            Ret (acc', i', ill') ∧
          (acc' = t ∧ ill' = ill ∨ acc' > t ∧ ill' = true))).
Proof.
  apply (add_chord_terminates (Scale_init "Major" [2;2;1;2;2;2;1]) major_chord).
  apply major_intervals_positive.
Defined.

(** ** A target of zero *)

Lemma zero_target_unmatched s d k :
  positive_scale s → ¬ matches_after (intervals s) d 0 k.
Proof.
  intros Hscale [[Hk _] Hsum].
  pose proof (running_sum_lower s (proj1 Hscale) (proj2 Hscale) k d). lia.
Qed.

(** C6: on a scale of non-empty positive intervals, a chord whose interval
    list begins with 0 gets no fitting root and [add_chord] returns [false]:
    the loop for the target 0 compares only after a positive step has been
    added, so it ends above the target with [illegal_chord] set. *)
Theorem zero_target_never_fits (s : Scale) (chord : Chord) (ts : list Z) (fuel : nat) :
  positive_scale s →
  chord_intervals chord = 0 :: ts →
  (enough_fuel chord ≤ fuel)%nat →
  add_chord fuel s chord =
    Ret (set_chords s (<[chord_name chord := ∅]> (chords s)), false) ∧
  (∀ i ill, 0 ≤ i < num_notes s →
     ∃ acc' i', while_true fuel s 0 (0, i, ill) = Ret (acc', i', true) ∧ 0 < acc').
Proof.
  intros Hscale Hts Hfuel. split.
  - destruct (add_chord_walk s Hscale chord fuel Hfuel) as (roots & b & Hrun & Hroots & Hb).
    assert (roots = ∅) as ->.
    { apply elem_of_equiv_empty_L. intros r [_ Hfit]%Hroots.
      rewrite Hts in Hfit. inversion Hfit as [|? ? k ? Hm _]; subst.
      by eapply zero_target_unmatched. }
    destruct b; [|done]. destruct Hb as [Hb _]. by destruct Hb.
  - intros i ill Hi.
    destruct (while_true_walk s (proj1 Hscale) (proj2 Hscale) 0 fuel 0 i ill Hi) as (k & Hk & _ & _ & Hrun).
    { unfold enough_fuel in Hfuel. cbn. lia. }
    pose proof (running_sum_lower s (proj1 Hscale) (proj2 Hscale) k i) as Hlow.
    rewrite Hrun.
    destruct (Z.gtb_spec (0 + running_sum (intervals s) i k) 0); [|lia].
    rewrite orb_true_r. eexists _, _. split; [done|lia].
Qed.

Lemma zero_target_never_fits_witness :
  add_chord 3 (Scale_init "Major" [2;2;1;2;2;2;1]) (mkChord "Unison" [0;2]) =
    Ret (set_chords (Scale_init "Major" [2;2;1;2;2;2;1]) (<["Unison" := ∅]> ∅), false) ∧
  (∀ i ill, 0 ≤ i < 7 →
     ∃ acc' i', while_true 3 (Scale_init "Major" [2;2;1;2;2;2;1]) 0 (0, i, ill) =
                  Ret (acc', i', true) ∧ 0 < acc').
Proof.
  apply (zero_target_never_fits (Scale_init "Major" [2;2;1;2;2;2;1])
           (mkChord "Unison" [0;2]) [2] 3).
  - apply major_intervals_positive.
  - reflexivity.
  - vm_compute. lia.
Defined.

(** ** [interval_between] *)

Lemma py_sum_snoc l x : py_sum (l ++ [x]) = py_sum l + x.
Proof. unfold py_sum. induction l as [|y l IH]; cbn; lia. Qed.

Lemma interval_between_sym s i j : interval_between s i j = interval_between s j i.
Proof.
  unfold interval_between.
  destruct (Z.gtb_spec i j), (Z.gtb_spec j i); try done; try lia.
  by replace j with i by lia.
Qed.

Section cycle.
Variable s : Scale.
Hypothesis Hne : intervals s ≠ [].

(** The loop of [interval_between] adds up a running sum. *)
Lemma interval_steps i k : ∀ a acc,
  for_each (seqZ a (Z.of_nat k))
    (λ k accumulated_interval,
       idx ← py_mod (i + k) (num_notes s);
       x ← py_index (intervals s) idx;
       Ret (accumulated_interval + x))
    acc
  = Ret (acc + running_sum (intervals s) (i + a) k).
Proof using Hne.
  pose proof (num_notes_pos s Hne) as HN.
  induction k as [|k IH]; intros a acc.
  { cbn. by rewrite Z.add_0_r. }
  rewrite seqZ_cons by lia. cbn [for_each].
  rewrite (py_mod_nonzero (i + a)) by lia. cbn [mbind res_bind].
  rewrite (py_index_degree s Hne) by (apply Z.mod_pos_bound; lia).
  cbn [mbind res_bind].
  replace (Z.pred (Z.of_nat (S k))) with (Z.of_nat k) by lia.
  rewrite IH. cbn [running_sum].
  rewrite (degree_interval_cong s _ (i + a)) by (apply Z.mod_mod; lia).
  replace (i + Z.succ a) with (i + a + 1) by lia.  f_equal. lia.
Qed.

Lemma interval_between_le i j :
  i ≤ j → interval_between s i j = Ret (running_sum (intervals s) i (Z.to_nat (j - i))).
Proof using Hne.
  intros Hij. unfold interval_between, py_range.
  destruct (Z.gtb_spec i j); [lia|].
  replace (j - i - 0) with (Z.of_nat (Z.to_nat (j - i))) by lia.
  rewrite interval_steps. by rewrite Z.add_0_l, Z.add_0_r.
Qed.

(** A full cycle has the same sum from every degree. *)
Lemma full_cycle_shift i :
  running_sum (intervals s) (i + 1) (length (intervals s)) = running_sum (intervals s) i (length (intervals s)).
Proof using Hne.
  pose proof (num_notes_pos s Hne) as HN.
  assert (Hboth : running_sum (intervals s) i (S (length (intervals s))) = running_sum (intervals s) i (S (length (intervals s))))
    by done.
  rewrite running_sum_snoc in Hboth at 1. cbn [running_sum] in Hboth.
  rewrite (degree_interval_cong s (i + Z.of_nat (length (intervals s))) i) in Hboth; [lia|].
  change (Z.of_nat (length (intervals s))) with (num_notes s).
  rewrite <- (Z.mul_1_l (num_notes s)) at 1. apply Z.mod_add. lia.
Qed.

Lemma full_cycle_from_zero i :
  running_sum (intervals s) i (length (intervals s)) = running_sum (intervals s) 0 (length (intervals s)).
Proof using Hne.
  pose proof (num_notes_pos s Hne) as HN.
  rewrite <- (running_sum_mod s Hne i).
  pose proof (Z.mod_pos_bound i (num_notes s) HN) as Hb.
  rewrite <- (Z2Nat.id (i `mod` num_notes s)) by lia.
  induction (Z.to_nat (i `mod` num_notes s)) as [|m IH]; [done|].
  rewrite Nat2Z.inj_succ, <- Z.add_1_r. by rewrite full_cycle_shift.
Qed.

Lemma running_sum_take k :
  (k ≤ length (intervals s))%nat → running_sum (intervals s) 0 k = py_sum (take k (intervals s)).
Proof using Hne.
  pose proof (num_notes_pos s Hne) as HN.
  induction k as [|k IH]; intros Hk; [done|].
  rewrite running_sum_snoc, IH by lia.
  destruct (lookup_lt_is_Some_2 (intervals s) k) as [x Hx]; [lia|].
  rewrite (take_S_r _ _ x), py_sum_snoc by done. f_equal.
  unfold degree_interval. rewrite Z.add_0_l, Z.mod_small, Nat2Z.id by lia.
  by rewrite Hx.
Qed.

Lemma full_cycle_sum i : running_sum (intervals s) i (length (intervals s)) = py_sum (intervals s).
Proof using Hne.
  rewrite full_cycle_from_zero, running_sum_take by done. by rewrite firstn_all.
Qed.
End cycle.

(** C7: on a scale with non-empty intervals, [interval_between] from any
    index [i] (in particular any non-negative one) to [i + N], for [N] the
    number of notes, is the sum of the scale's intervals; on the Major scale
    [interval_between(0, 7)] is 12. *)
Theorem interval_between_full_cycle (s : Scale) (i : Z) :
  intervals s ≠ [] →
  interval_between s i (i + num_notes s) = Ret (py_sum (intervals s)) ∧
  interval_between (Scale_init "Major" [2;2;1;2;2;2;1]) 0 7 = Ret 12.
Proof.
  intros Hne. split; [|done].
  pose proof (num_notes_pos s Hne).
  rewrite interval_between_le by (done || lia).
  replace (Z.to_nat (i + num_notes s - i)) with (length (intervals s))
    by (unfold num_notes; lia).
  by rewrite full_cycle_sum.
Qed.

Lemma interval_between_full_cycle_witness :
  interval_between (Scale_init "Minor" [2;1;2;2;1;2;2]) 3 (3 + 7) = Ret 12 ∧
  interval_between (Scale_init "Major" [2;2;1;2;2;2;1]) 0 7 = Ret 12.
Proof.
  apply (interval_between_full_cycle (Scale_init "Minor" [2;1;2;2;1;2;2]) 3).
  cbn. discriminate.
Defined.

(** C8: on a scale with non-empty intervals [interval_between] returns, gives
    the same distance for [(i, j)] and [(j, i)], and gives 0 when [i = j]. *)
Theorem interval_between_symmetric (s : Scale) (i j : Z) :
  intervals s ≠ [] →
  (∃ v, interval_between s i j = Ret v ∧ interval_between s j i = Ret v) ∧
  (i = j → interval_between s i j = Ret 0).
Proof.
  intros Hne. split.
  - rewrite (interval_between_sym s j i).
    destruct (Z.le_ge_cases i j) as [Hij|Hji].
    + rewrite interval_between_le by done. by eexists.
    + rewrite interval_between_sym, interval_between_le by done. by eexists.
  - intros ->. rewrite interval_between_le by (done || lia).
    by rewrite Z.sub_diag.
Qed.

Lemma interval_between_symmetric_witness :
  (∃ v, interval_between (Scale_init "Major" [2;2;1;2;2;2;1]) 9 2 = Ret v ∧
        interval_between (Scale_init "Major" [2;2;1;2;2;2;1]) 2 9 = Ret v) ∧
  (9 = 2 → interval_between (Scale_init "Major" [2;2;1;2;2;2;1]) 9 2 = Ret 0).
Proof.
  apply (interval_between_symmetric (Scale_init "Major" [2;2;1;2;2;2;1]) 9 2).
  cbn. discriminate.
Defined.

(** ** The Major scale *)

(** C5: on the Major scale [2,2,1,2,2,2,1], [add_chord] with the Major chord
    [4,3] stores exactly the roots {0, 3, 4}, and with the Diminished chord
    [3,3] exactly the root {6}. *)
Theorem major_scale_fitting_roots (s : Scale) (fuel : nat) :
  intervals s = [2;2;1;2;2;2;1] →
  (enough_fuel major_chord ≤ fuel)%nat →
  add_chord fuel s major_chord =
    Ret (set_chords s (<["Major" := {[0; 3; 4]}]> (chords s)), true) ∧
  add_chord fuel s dim_chord =
    Ret (set_chords s (<["Diminished" := {[6]}]> (chords s)), true).
Proof.
  intros Hivs Hfuel. destruct s as [nm ivs cs]. cbn in Hivs. subst ivs.
  assert (5 ≤ fuel)%nat as Hfuel' by (vm_compute in Hfuel; lia).
  split.
  - apply (add_chord_mono _ _ 5%nat fuel); [done|].
    rewrite add_chord_fitting.
    assert (fitting 5 (mkScale nm [2;2;1;2;2;2;1] cs) (chord_intervals major_chord)
              (py_range 0 (num_notes (mkScale nm [2;2;1;2;2;2;1] cs))) = Ret [0; 3; 4])
      as -> by (vm_compute; reflexivity).
    reflexivity.
  - apply (add_chord_mono _ _ 4%nat fuel); [lia|].
    rewrite add_chord_fitting.
    assert (fitting 4 (mkScale nm [2;2;1;2;2;2;1] cs) (chord_intervals dim_chord)
              (py_range 0 (num_notes (mkScale nm [2;2;1;2;2;2;1] cs))) = Ret [6])
      as -> by (vm_compute; reflexivity).
    reflexivity.
Qed.

Lemma major_scale_fitting_roots_witness :
  add_chord 5 (Scale_init "Major" [2;2;1;2;2;2;1]) major_chord =
    Ret (set_chords (Scale_init "Major" [2;2;1;2;2;2;1]) (<["Major" := {[0; 3; 4]}]> ∅), true) ∧
  add_chord 5 (Scale_init "Major" [2;2;1;2;2;2;1]) dim_chord =
    Ret (set_chords (Scale_init "Major" [2;2;1;2;2;2;1]) (<["Diminished" := {[6]}]> ∅), true).
Proof.
  apply (major_scale_fitting_roots (Scale_init "Major" [2;2;1;2;2;2;1]) 5).
  - reflexivity.
  - vm_compute. lia.
Defined.

(** ** Memoization *)

Lemma list_to_set_non_empty (l : list Z) : (list_to_set l : gset Z) ≠ ∅ ↔ l ≠ [].
Proof.
  destruct l as [|x l]; [done|]. split; [done|]. intros _.
  apply (non_empty_inhabited_L x). rewrite elem_of_list_to_set, elem_of_cons. by left.
Qed.

Lemma add_chord_result fuel s chord s' b :
  add_chord fuel s chord = Ret (s', b) →
  ∃ roots, s' = set_chords s (<[chord_name chord := roots]> (chords s)) ∧
           (b = true ↔ roots ≠ ∅).
Proof.
  rewrite add_chord_fitting. intros (fitted & _ & [= <- <-])%bind_Ret.
  eexists. split; [done|]. by rewrite bool_decide_eq_true, list_to_set_non_empty.
Qed.

Lemma py_len_zero roots : py_len roots = 0 ↔ roots = ∅.
Proof. unfold py_len. rewrite <- (leibniz_equiv_iff roots ∅), <- size_empty_iff. lia. Qed.

(** A memoized entry answers [has_chord] without any search. *)
Lemma has_chord_memo fuel s chord roots :
  chords s !! chord_name chord = Some roots →
  has_chord fuel s chord = Ret (s, bool_decide (roots ≠ ∅)).
Proof.
  intros Hroots. unfold has_chord. rewrite Hroots.
  destruct (Z.gtb_spec (py_len roots) 0) as [Hpos|Hle].
  - rewrite bool_decide_true; [done|]. rewrite <- py_len_zero. lia.
  - assert (py_len roots = 0) as Hzero by (unfold py_len in *; lia).
    rewrite Hzero. cbn. rewrite bool_decide_false; [done|].
    apply py_len_zero in Hzero. by intros [].
Qed.

Lemma has_chord_result fuel s chord s' b :
  has_chord fuel s chord = Ret (s', b) →
  ∃ roots, chords s' !! chord_name chord = Some roots ∧ (b = true ↔ roots ≠ ∅).
Proof.
  destruct (chords s !! chord_name chord) as [roots|] eqn:Hroots.
  - rewrite (has_chord_memo _ _ _ _ Hroots). intros [= <- <-].
    exists roots. split; [done|]. by rewrite bool_decide_eq_true.
  - unfold has_chord. rewrite Hroots.
    intros (roots & -> & Hb)%add_chord_result. exists roots. split; [|done].
    cbn. apply lookup_insert_eq.
Qed.

Lemma add_chord_again fuel s chord s' b :
  add_chord fuel s chord = Ret (s', b) → add_chord fuel s' chord = Ret (s', b).
Proof.
  rewrite !add_chord_fitting. intros (fitted & Hfitted & [= <- <-])%bind_Ret.
  rewrite fitting_set_chords. change (num_notes (set_chords s _)) with (num_notes s).
  rewrite Hfitted. cbn. unfold set_chords. cbn. by rewrite insert_insert_eq.
Qed.

(** C4: [has_chord] answers [true] exactly when the set stored for the
    chord's name (found memoized, or just computed) is not empty; asking again
    gives the same answer and leaves the scale as it is; [add_chord] run a
    second time stores the same set and returns the same value; and on a scale
    of non-empty positive intervals both calls return. *)
Theorem has_chord_stable (s : Scale) (chord : Chord) (fuel : nat) :
  (∀ s' b, has_chord fuel s chord = Ret (s', b) →
     (∃ roots, chords s' !! chord_name chord = Some roots ∧ (b = true ↔ roots ≠ ∅)) ∧
     (∀ fuel', has_chord fuel' s' chord = Ret (s', b))) ∧
  (∀ s' b, add_chord fuel s chord = Ret (s', b) →
     add_chord fuel s' chord = Ret (s', b)) ∧
  (positive_scale s → (enough_fuel chord ≤ fuel)%nat →
     returns (has_chord fuel s chord) ∧ returns (add_chord fuel s chord)).
Proof.
  split; [|split].
  - intros s' b Hrun.
    destruct (has_chord_result _ _ _ _ _ Hrun) as (roots & Hroots & Hb).
    split; [by exists roots|]. intros fuel'.
    rewrite (has_chord_memo _ _ _ _ Hroots). do 2 f_equal.
    destruct b.
    + apply bool_decide_eq_true. by apply Hb.
    + apply bool_decide_eq_false. intros Hne. by apply Hb in Hne.
  - apply add_chord_again.
  - intros Hscale Hfuel.
    destruct (add_chord_walk s Hscale chord fuel Hfuel) as (roots & b & Hrun & _).
    split; [|by eexists].
    unfold has_chord. destruct (chords s !! chord_name chord) as [memo|]; [|by eexists].
    destruct (_ >? _); [by eexists|]. destruct (_ =? _); by eexists.
Qed.

(** ** [chordal_relationships] *)

(** C9: when [has_chord] answers [false] for either scale,
    [chordal_relationships] prints no relationship line and still prints the
    summary, with an empty set. *)
Theorem chordal_relationships_lacking (fuel : nat) (h : heap) (scale_1 scale_2 : loc)
    (chord : Chord) (s1 s2 s1' s2' : Scale) (b1 b2 : bool) :
  h !! scale_1 = Some s1 →
  h !! scale_2 = Some s2 →
  has_chord fuel s1 chord = Ret (s1', b1) →
  has_chord fuel s2 chord = Ret (s2', b2) →
  b1 = false ∨ b2 = false →
  ∃ h', chordal_relationships fuel h scale_1 scale_2 chord =
          Ret (h', [PrintReach (chord_name chord) ∅]).
Proof.
  intros H1 H2 Hrun1 Hrun2 Hlack.
  unfold chordal_relationships, call_has_chord, deref. cbn zeta.
  rewrite H1. cbn [mbind res_bind]. rewrite Hrun1. cbn [mbind res_bind].
  destruct b1; cbn [mbind res_bind andb]; [|by eexists].
  destruct Hlack as [?|Hb2]; [done|]. subst b2.
  destruct (decide (scale_1 = scale_2)) as [Hsame|Hdiff]; [subst scale_2|].
  { rewrite H1 in H2. injection H2 as <-. rewrite Hrun1 in Hrun2. done. }
  rewrite lookup_insert_ne, H2 by done. cbn [mbind res_bind].
  rewrite Hrun2. cbn [mbind res_bind andb]. by eexists.
Qed.

Lemma chordal_relationships_lacking_witness :
  ∃ h', chordal_relationships 5 constructed major_scale minor_scale aug_chord =
          Ret (h', [PrintReach "Augmented" ∅]).
Proof.
  apply (chordal_relationships_lacking 5 constructed major_scale minor_scale aug_chord
           (Scale_init "Major" [2;2;1;2;2;2;1]) (Scale_init "Minor" [2;1;2;2;1;2;2])
           (mkScale "Major" [2;2;1;2;2;2;1] {["Augmented" := ∅]})
           (mkScale "Minor" [2;1;2;2;1;2;2] {["Augmented" := ∅]})
           false false).
  - reflexivity.
  - reflexivity.
  - vm_compute. reflexivity.
  - vm_compute. reflexivity.
  - left. reflexivity.
Defined.

(** ** The program after the module is loaded *)

Lemma module_load_loaded fuel :
  (6 ≤ fuel)%nat → ∃ out, module_load fuel = Ret (loaded, out).
Proof.
  intros Hfuel. eexists. apply (module_load_mono 6%nat fuel); [done|].
  vm_compute. reflexivity.
Qed.

(** The last argument handed to [format] is named by no field of the
    template: the text does not depend on it. *)
Lemma relationship_text_ignores_semitones a0 a1 a2 a3 a4 a5 a6 x y :
  py_format relationship_template [a0; a1; a2; a3; a4; a5; a6; x] =
  py_format relationship_template [a0; a1; a2; a3; a4; a5; a6; y].
Proof. reflexivity. Qed.

(** What a step of the nested loops computes: both distances are taken on
    the first scale. *)
Lemma relationship_step_distances scale_1 scale_2 chord root_1 root_2 out fifths dist_1 dist_2 :
  interval_between scale_1 0 root_1 = Ret dist_1 →
  interval_between scale_1 0 root_2 = Ret dist_2 →
  relationship_step scale_1 scale_2 chord root_1 root_2 (out, fifths) =
    text ← py_format relationship_template
      [ VStr (name scale_1); VStr (name scale_2); VStr (chord_name chord);
        VInt (root_1 + 1); VInt (root_2 + 1);
        VInt (((dist_2 - dist_1) * 7) `mod` 12);
        VInt ((12 - ((dist_2 - dist_1) * 7) `mod` 12) `mod` 12);
        VInt ((dist_2 - dist_1) `mod` 12) ];
    Ret (out ++ [Print text], fifths ∪ {[ ((dist_2 - dist_1) * 7) `mod` 12 ]}).
Proof. intros H1 H2. unfold relationship_step. by rewrite H1, H2. Qed.

(** C2 (the code departs from the claim): for the roots 0 and 3 of the Major
    chord in the Major scale the key distance is 5 semitones; the line printed
    for this pair shows 11 fifths and 1 fourth, and nowhere the 5. *)
Theorem relationship_line_omits_semitones (fuel : nat) :
  (∃ out, chordal_relationships fuel loaded major_scale major_scale major_chord =
            Ret (loaded, out) ∧
          Print major_I_IV_line ∈ out) ∧
  (∃ s, loaded !! major_scale = Some s ∧
        interval_between s 0 0 = Ret 0 ∧
        interval_between s 0 3 = Ret 5 ∧
        relationship_step s s major_chord 0 3 ([], ∅) =
          Ret ([Print major_I_IV_line], {[ (5 * 7) `mod` 12 ]})) ∧
  5 `mod` 12 = 5 ∧
  String.index 0 (pretty 5) major_I_IV_line = None.
Proof.
  split; [|split; [|split]].
  - eexists. split; [vm_compute; reflexivity|].
    apply list_elem_of_In. cbn [In].
    repeat (first [left; reflexivity | right]).
  - eexists. split; [reflexivity|]. split; [reflexivity|]. split; [reflexivity|].
    vm_compute. reflexivity.
  - reflexivity.
  - vm_compute. reflexivity.
Qed.

Lemma major_reached fuel :
  ∃ out, chordal_relationships fuel loaded major_scale major_scale major_chord =
           Ret (loaded, out) ∧
         reached out = Some {[0; 1; 2; 10; 11]}.
Proof. eexists. split; vm_compute; reflexivity. Qed.

(** C3, as stated: the set reached for the Major chord between the Major
    scale and itself is not the set of the pairwise differences among the
    roots 0, 3 and 4 scaled by 7 modulo 12 (which holds 3 and lacks 1). *)
Lemma major_reached_not_root_differences :
  ¬ ∃ h out fifths,
      chordal_relationships 6 loaded major_scale major_scale major_chord = Ret (h, out) ∧
      reached out = Some fifths ∧
      0 ∈ fifths ∧
      fifths = difference_fifths {[0; 3; 4]}.
Proof.
  intros (h & out & fifths & Hrun & Hreached & _ & Hfifths).
  destruct (major_reached 6) as (out' & Hrun' & Hreached').
  rewrite Hrun' in Hrun. injection Hrun as _ <-.
  rewrite Hreached' in Hreached. injection Hreached as <-.
  assert (Hin : 1 ∈ ({[0; 1; 2; 10; 11]} : gset Z))
    by (apply (bool_decide_unpack _); vm_compute; exact I).
  rewrite Hfifths in Hin. apply (bool_decide_pack _) in Hin.
  vm_compute in Hin. exact Hin.
Qed.

(** C3, amended: the set reached is {0, 1, 2, 10, 11}; it holds 0 and is the
    set of the pairwise differences, scaled by 7 modulo 12, among the semitone
    distances 0, 5 and 7 at which the roots 0, 3 and 4 lie from the first
    degree of the scale. *)
Theorem major_reached_offset_differences (fuel : nat) :
  ∃ out s,
    chordal_relationships fuel loaded major_scale major_scale major_chord =
      Ret (loaded, out) ∧
    loaded !! major_scale = Some s ∧
    chords s !! "Major" = Some {[0; 3; 4]} ∧
    interval_between s 0 0 = Ret 0 ∧
    interval_between s 0 3 = Ret 5 ∧
    interval_between s 0 4 = Ret 7 ∧
    reached out = Some (difference_fifths {[0; 5; 7]}) ∧
    difference_fifths {[0; 5; 7]} = {[0; 1; 2; 10; 11]} ∧
    0 ∈ difference_fifths {[0; 5; 7]}.
Proof.
  eexists _, _. split; [vm_compute; reflexivity|].
  split; [reflexivity|]. split; [vm_compute; reflexivity|].
  split; [reflexivity|]. split; [reflexivity|]. split; [reflexivity|].
  split; [vm_compute; reflexivity|]. split; [vm_compute; reflexivity|].
  apply (bool_decide_unpack _). vm_compute. exact I.
Qed.

(** * Further properties of the code *)

(** ** [interval_between]: composition, periodicity, bounds *)

Lemma running_sum_add ivs k1 : ∀ d k2,
  running_sum ivs d (k1 + k2) =
    running_sum ivs d k1 + running_sum ivs (d + Z.of_nat k1) k2.
Proof.
  induction k1 as [|k1 IH]; intros d k2.
  - cbn [running_sum Nat.add]. replace (d + Z.of_nat 0) with d by lia. lia.
  - cbn [running_sum Nat.add]. rewrite IH.
    replace (d + 1 + Z.of_nat k1) with (d + Z.of_nat (S k1)) by lia. lia.
Qed.

(** X1: Distances add up along the scale: going from [i] to [k] through [j]. *)
Theorem interval_between_additive (s : Scale) (i j k : Z) :
  intervals s ≠ [] →
  i ≤ j → j ≤ k →
  ∃ a b, interval_between s i j = Ret a ∧
         interval_between s j k = Ret b ∧
         interval_between s i k = Ret (a + b).
Proof.
  intros Hne Hij Hjk.
  rewrite !(interval_between_le s Hne) by lia.
  eexists _, _. split; [done|]. split; [done|]. f_equal.
  replace (Z.to_nat (k - i)) with (Z.to_nat (j - i) + Z.to_nat (k - j))%nat by lia.
  rewrite running_sum_add. do 2 f_equal. lia.
Qed.

Lemma interval_between_additive_witness :
  ∃ a b, interval_between (Scale_init "Major" [2;2;1;2;2;2;1]) 1 4 = Ret a ∧
         interval_between (Scale_init "Major" [2;2;1;2;2;2;1]) 4 9 = Ret b ∧
         interval_between (Scale_init "Major" [2;2;1;2;2;2;1]) 1 9 = Ret (a + b).
Proof.
  apply (interval_between_additive (Scale_init "Major" [2;2;1;2;2;2;1]) 1 4 9).
  - cbn. discriminate.
  - lia.
  - lia.
Defined.

(** X2: Moving both indices up by one cycle of the scale leaves the distance as
    it is. *)
Theorem interval_between_shift_cycle (s : Scale) (i j : Z) :
  intervals s ≠ [] →
  interval_between s (i + num_notes s) (j + num_notes s) = interval_between s i j.
Proof.
  intros Hne. pose proof (num_notes_pos s Hne) as HN.
  assert (Hle : ∀ a b, a ≤ b →
    interval_between s (a + num_notes s) (b + num_notes s) = interval_between s a b).
  { intros a b Hab. rewrite !(interval_between_le s Hne) by lia. f_equal.
    replace (b + num_notes s - (a + num_notes s)) with (b - a) by lia.
    apply (running_sum_cong s Hne).
    rewrite <- (Z.mul_1_l (num_notes s)) at 1. apply Z.mod_add. lia. }
  destruct (Z.le_ge_cases i j) as [Hij|Hji]; [by apply Hle|].
  rewrite interval_between_sym, (interval_between_sym s i j). apply Hle. lia.
Qed.

Lemma interval_between_shift_cycle_witness :
  interval_between (Scale_init "Major" [2;2;1;2;2;2;1]) (5 + 7) (2 + 7) =
  interval_between (Scale_init "Major" [2;2;1;2;2;2;1]) 5 2.
Proof.
  apply (interval_between_shift_cycle (Scale_init "Major" [2;2;1;2;2;2;1]) 5 2).
  cbn. discriminate.
Defined.

(** X3: Pushing the upper index one cycle further adds the sum of the scale's
    intervals. *)
Theorem interval_between_extra_cycle (s : Scale) (i j : Z) :
  intervals s ≠ [] →
  i ≤ j →
  ∃ a, interval_between s i j = Ret a ∧
       interval_between s i (j + num_notes s) = Ret (a + py_sum (intervals s)).
Proof.
  intros Hne Hij. pose proof (num_notes_pos s Hne) as HN.
  rewrite !(interval_between_le s Hne) by lia.
  eexists. split; [done|]. f_equal.
  replace (Z.to_nat (j + num_notes s - i))
    with (Z.to_nat (j - i) + length (intervals s))%nat by (unfold num_notes in *; lia).
  by rewrite running_sum_add, (full_cycle_sum s Hne).
Qed.

Lemma interval_between_extra_cycle_witness :
  ∃ a, interval_between (Scale_init "Minor" [2;1;2;2;1;2;2]) 2 5 = Ret a ∧
       interval_between (Scale_init "Minor" [2;1;2;2;1;2;2]) 2 (5 + 7) = Ret (a + 12).
Proof.
  apply (interval_between_extra_cycle (Scale_init "Minor" [2;1;2;2;1;2;2]) 2 5).
  - cbn. discriminate.
  - lia.
Defined.

(** X4: On a scale without intervals the distance from an index to itself is 0
    and any other distance raises [ZeroDivisionError]. *)
Theorem interval_between_empty_scale (s : Scale) (i j : Z) :
  intervals s = [] →
  interval_between s i j = if decide (i = j) then Ret 0 else Raise ZeroDivisionError.
Proof.
  intros Hnil.
  assert (Hle : ∀ a b, a ≤ b →
    for_each (py_range 0 (b - a))
      (λ k accumulated_interval,
         idx ← py_mod (a + k) (num_notes s);
         x ← py_index (intervals s) idx;
         Ret (accumulated_interval + x)) 0
    = if decide (a = b) then Ret 0 else Raise ZeroDivisionError).
  { intros a b Hab. unfold py_range, num_notes. rewrite Hnil. cbn [length Z.of_nat].
    destruct (decide (a = b)) as [->|Hneq].
    - by rewrite seqZ_nil by lia.
    - rewrite seqZ_cons by lia. reflexivity. }
  unfold interval_between. destruct (Z.gtb_spec i j) as [Hgt|Hle'].
  - rewrite (Hle j i) by lia. destruct (decide (j = i)), (decide (i = j)); done || lia.
  - by apply Hle.
Qed.

Lemma interval_between_empty_scale_witness :
  interval_between (Scale_init "Silent" []) 0 3 =
    if decide (0 = 3) then Ret 0 else Raise ZeroDivisionError.
Proof. apply (interval_between_empty_scale (Scale_init "Silent" []) 0 3). reflexivity. Defined.

(** X5: On a scale of positive intervals the distance is at least the number of
    steps between the two indices, so it is 0 only from an index to itself. *)
Theorem interval_between_lower_bound (s : Scale) (i j : Z) :
  positive_scale s →
  ∃ v, interval_between s i j = Ret v ∧ Z.abs (j - i) ≤ v ∧ (v = 0 ↔ i = j).
Proof.
  intros Hscale. destruct Hscale as [Hne Hpos].
  assert (Hle : ∀ a b, a ≤ b →
    ∃ v, interval_between s a b = Ret v ∧ b - a ≤ v ∧ (v = 0 → a = b)).
  { intros a b Hab. rewrite (interval_between_le s Hne) by done.
    pose proof (running_sum_lower s Hne Hpos (Z.to_nat (b - a)) a).
    eexists. split; [done|]. split; lia. }
  destruct (Z.le_ge_cases i j) as [Hij|Hji].
  - destruct (Hle i j Hij) as (v & Hrun & Hlow & Hzero).
    exists v. split; [done|]. split; [lia|]. split; [done|].
    intros ->. rewrite (interval_between_le s Hne), Z.sub_diag in Hrun by lia.
    by injection Hrun as <-.
  - destruct (Hle j i) as (v & Hrun & Hlow & Hzero); [lia|].
    rewrite interval_between_sym in Hrun.
    exists v. split; [done|]. split; [lia|]. split; [by intros ->%Hzero|].
    intros ->. rewrite (interval_between_le s Hne), Z.sub_diag in Hrun by lia.
    by injection Hrun as <-.
Qed.

Lemma interval_between_lower_bound_witness :
  ∃ v, interval_between (Scale_init "Major" [2;2;1;2;2;2;1]) 8 3 = Ret v ∧
       Z.abs (3 - 8) ≤ v ∧ (v = 0 ↔ 8 = 3).
Proof.
  apply (interval_between_lower_bound (Scale_init "Major" [2;2;1;2;2;2;1]) 8 3).
  apply major_intervals_positive.
Defined.

(** ** [add_chord] and [has_chord]: edge cases and invariants *)

(** X6: A scale without intervals has no base note to try: the chord's entry is
    set to the empty set and the answer is [False], whatever the chord. *)
Theorem add_chord_empty_scale (fuel : nat) (s : Scale) (chord : Chord) :
  intervals s = [] →
  add_chord fuel s chord =
    Ret (set_chords s (<[chord_name chord := ∅]> (chords s)), false).
Proof.
  intros Hnil. unfold add_chord, num_notes. cbn [intervals set_chords].
  rewrite Hnil. reflexivity.
Qed.

Lemma add_chord_empty_scale_witness :
  add_chord 0 (Scale_init "Silent" []) major_chord =
    Ret (set_chords (Scale_init "Silent" []) (<["Major" := ∅]> ∅), false).
Proof. apply (add_chord_empty_scale 0 (Scale_init "Silent" []) major_chord). reflexivity. Defined.

Lemma fitting_no_targets fuel s bases : fitting fuel s [] bases = Ret bases.
Proof. induction bases as [|b bases IH]; [done|]. cbn. by rewrite IH. Qed.

(** X7: A chord without intervals fits at every degree: on any scale, and with no
    step of the [while] loop, every degree is stored, and the answer is [True]
    unless the scale has no degree at all. *)
Theorem add_chord_empty_chord (fuel : nat) (s : Scale) (chord : Chord) :
  chord_intervals chord = [] →
  ∃ roots,
    add_chord fuel s chord =
      Ret (set_chords s (<[chord_name chord := roots]> (chords s)),
           bool_decide (intervals s ≠ [])) ∧
    ∀ r, r ∈ roots ↔ 0 ≤ r < num_notes s.
Proof.
  intros Hnil. rewrite add_chord_fitting, Hnil, fitting_no_targets. cbn [mbind res_bind].
  eexists. split.
  - do 2 f_equal. apply bool_decide_ext. unfold py_range, num_notes.
    destruct (intervals s) as [|x l]; [done|].
    rewrite seqZ_cons by (cbn [length]; lia). done.
  - intros r. by rewrite elem_of_list_to_set, elem_of_py_range.
Qed.

Lemma add_chord_empty_chord_witness :
  ∃ roots,
    add_chord 0 (Scale_init "Major" [2;2;1;2;2;2;1]) (mkChord "Root" []) =
      Ret (set_chords (Scale_init "Major" [2;2;1;2;2;2;1]) (<["Root" := roots]> ∅),
           bool_decide ([2;2;1;2;2;2;1] ≠ [])) ∧
    ∀ r, r ∈ roots ↔ 0 ≤ r < 7.
Proof.
  apply (add_chord_empty_chord 0 (Scale_init "Major" [2;2;1;2;2;2;1]) (mkChord "Root" [])).
  reflexivity.
Defined.

Lemma fitting_among_bases fuel s ts bases : ∀ fitted,
  fitting fuel s ts bases = Ret fitted → ∀ r, r ∈ fitted → r ∈ bases.
Proof.
  induction bases as [|b bases IH]; intros fitted Hrun r Hr.
  { injection Hrun as <-. done. }
  cbn [fitting] in Hrun. apply bind_Ret in Hrun as ([i ill] & _ & Hrun).
  apply bind_Ret in Hrun as (rest & Hrest & [= <-]).
  destruct ill; cbn [negb] in Hr.
  - right. by eapply IH.
  - apply elem_of_cons in Hr as [->|Hr]; [by left|]. right. by eapply IH.
Qed.

(** X8: Whenever [add_chord] returns, on any scale, it has changed nothing but
    the entry of the chord's name, and every root it stored is a degree of
    the scale. *)
Theorem add_chord_frame (fuel : nat) (s s' : Scale) (chord : Chord) (b : bool) :
  add_chord fuel s chord = Ret (s', b) →
  name s' = name s ∧
  intervals s' = intervals s ∧
  (∀ k, k ≠ chord_name chord → chords s' !! k = chords s !! k) ∧
  ∃ roots, chords s' !! chord_name chord = Some roots ∧
           ∀ r, r ∈ roots → 0 ≤ r < num_notes s.
Proof.
  rewrite add_chord_fitting. intros (fitted & Hfitted & [= <- <-])%bind_Ret.
  split; [done|]. split; [done|]. split.
  - intros k Hk. cbn. by rewrite lookup_insert_ne.
  - eexists. split; [cbn; apply lookup_insert_eq|].
    intros r Hr%elem_of_list_to_set. apply (elem_of_py_range 0).
    by eapply fitting_among_bases.
Qed.

Lemma add_chord_frame_witness :
  name (mkScale "Major" [2;2;1;2;2;2;1] {["Major" := {[0; 3; 4]}; "Minor" := {[1]}]}) = "Major" ∧
  intervals (mkScale "Major" [2;2;1;2;2;2;1] {["Major" := {[0; 3; 4]}; "Minor" := {[1]}]})
    = [2;2;1;2;2;2;1] ∧
  (∀ k, k ≠ "Major" →
     chords (mkScale "Major" [2;2;1;2;2;2;1] {["Major" := {[0; 3; 4]}; "Minor" := {[1]}]}) !! k
     = chords (mkScale "Major" [2;2;1;2;2;2;1] {["Minor" := {[1]}]}) !! k) ∧
  ∃ roots,
    chords (mkScale "Major" [2;2;1;2;2;2;1] {["Major" := {[0; 3; 4]}; "Minor" := {[1]}]})
      !! "Major" = Some roots ∧
    ∀ r, r ∈ roots → 0 ≤ r < 7.
Proof.
  apply (add_chord_frame 5 (mkScale "Major" [2;2;1;2;2;2;1] {["Minor" := {[1]}]})
           (mkScale "Major" [2;2;1;2;2;2;1] {["Major" := {[0; 3; 4]}; "Minor" := {[1]}]})
           major_chord true).
  vm_compute. reflexivity.
Defined.

(** X9: [add_chord] recomputes from scratch: the roots it stores and its answer
    do not depend on what the scale's dictionary held before. *)
Theorem add_chord_ignores_memo (fuel : nat) (s s' : Scale) (chord : Chord) (b : bool) :
  add_chord fuel s chord = Ret (s', b) →
  ∃ roots,
    chords s' !! chord_name chord = Some roots ∧
    ∀ cs, add_chord fuel (set_chords s cs) chord =
            Ret (set_chords s (<[chord_name chord := roots]> cs), b).
Proof.
  rewrite add_chord_fitting. intros (fitted & Hfitted & [= <- <-])%bind_Ret.
  eexists. split; [cbn; apply lookup_insert_eq|].
  intros cs. rewrite add_chord_fitting, fitting_set_chords.
  change (num_notes (set_chords s cs)) with (num_notes s). by rewrite Hfitted.
Qed.

Lemma add_chord_ignores_memo_witness :
  ∃ roots,
    chords (mkScale "Major" [2;2;1;2;2;2;1] {["Major" := {[0; 3; 4]}]}) !! "Major"
      = Some roots ∧
    ∀ cs, add_chord 5 (set_chords (Scale_init "Major" [2;2;1;2;2;2;1]) cs) major_chord =
            Ret (set_chords (Scale_init "Major" [2;2;1;2;2;2;1]) (<["Major" := roots]> cs), true).
Proof.
  apply (add_chord_ignores_memo 5 (Scale_init "Major" [2;2;1;2;2;2;1])
           (mkScale "Major" [2;2;1;2;2;2;1] {["Major" := {[0; 3; 4]}]}) major_chord true).
  vm_compute. reflexivity.
Defined.

Lemma has_chord_same_name fuel s s' chord other b :
  has_chord fuel s chord = Ret (s', b) →
  chord_name other = chord_name chord →
  ∀ fuel', has_chord fuel' s' other = Ret (s', b).
Proof.
  intros Hrun Hname fuel'.
  destruct (has_chord_result _ _ _ _ _ Hrun) as (roots & Hroots & Hb).
  rewrite <- Hname in Hroots. rewrite (has_chord_memo _ _ _ _ Hroots). do 2 f_equal.
  destruct b.
  - apply bool_decide_eq_true. by apply Hb.
  - apply bool_decide_eq_false. intros Hne. by apply Hb in Hne.
Qed.

(** X10: The memo of [has_chord] is keyed by the chord's name alone: once a chord
    has been asked for, any chord of the same name gets the same answer and
    starts no search, whatever its intervals. *)
Theorem has_chord_keyed_by_name (fuel : nat) (s s' : Scale) (chord other : Chord) (b : bool) :
  has_chord fuel s chord = Ret (s', b) →
  chord_name other = chord_name chord →
  ∀ fuel', has_chord fuel' s' other = Ret (s', b).
Proof. apply has_chord_same_name. Qed.

Lemma has_chord_keyed_by_name_witness :
  has_chord 0 (mkScale "Major" [2;2;1;2;2;2;1] {["Major" := {[0; 3; 4]}]})
    (mkChord "Major" [4;4])
  = Ret (mkScale "Major" [2;2;1;2;2;2;1] {["Major" := {[0; 3; 4]}]}, true).
Proof.
  refine (has_chord_keyed_by_name 5 (Scale_init "Major" [2;2;1;2;2;2;1])
            (mkScale "Major" [2;2;1;2;2;2;1] {["Major" := {[0; 3; 4]}]})
            major_chord (mkChord "Major" [4;4]) true _ _ 0%nat).
  - vm_compute. reflexivity.
  - reflexivity.
Defined.

(** ** Which chords fit *)

Lemma nonpositive_target_unfit s ts : ∀ d t,
  positive_scale s → t ∈ ts → t ≤ 0 → ¬ chord_fits (intervals s) d ts.
Proof.
  intros d t [Hne Hpos] Ht Hle Hfit. revert Ht.
  induction Hfit as [d|d t' k ts [[Hk _] Hsum] _ IH]; intros Ht.
  { by apply elem_of_nil in Ht. }
  apply elem_of_cons in Ht as [->|Ht]; [|by apply IH].
  pose proof (running_sum_lower s Hne Hpos k d). lia.
Qed.

(** X11: On a scale of positive intervals a chord with a target that is zero or
    negative, at any place of its interval list, fits nowhere. *)
Theorem nonpositive_target_never_fits (s : Scale) (chord : Chord) (t : Z) (fuel : nat) :
  positive_scale s →
  t ∈ chord_intervals chord →
  t ≤ 0 →
  (enough_fuel chord ≤ fuel)%nat →
  add_chord fuel s chord =
    Ret (set_chords s (<[chord_name chord := ∅]> (chords s)), false).
Proof.
  intros Hscale Ht Hle Hfuel.
  destruct (add_chord_walk s Hscale chord fuel Hfuel) as (roots & b & Hrun & Hroots & Hb).
  assert (roots = ∅) as ->.
  { apply elem_of_equiv_empty_L. intros r [_ Hfit]%Hroots.
    by eapply nonpositive_target_unfit. }
  destruct b; [|done]. destruct Hb as [Hb _]. by destruct Hb.
Qed.

Lemma nonpositive_target_never_fits_witness :
  add_chord 5 (Scale_init "Major" [2;2;1;2;2;2;1]) (mkChord "Back" [4; -1]) =
    Ret (set_chords (Scale_init "Major" [2;2;1;2;2;2;1]) (<["Back" := ∅]> ∅), false).
Proof.
  apply (nonpositive_target_never_fits (Scale_init "Major" [2;2;1;2;2;2;1])
           (mkChord "Back" [4; -1]) (-1) 5).
  - apply major_intervals_positive.
  - cbn. apply elem_of_cons. right. apply elem_of_cons. by left.
  - lia.
  - vm_compute. lia.
Defined.

Lemma py_sum_take_S t ts m : py_sum (take (S m) (t :: ts)) = t + py_sum (take m ts).
Proof. reflexivity. Qed.

Lemma py_sum_take_positive ts : ∀ m,
  Forall (λ t, 0 < t) ts → (0 < m)%nat → 0 < py_sum (take m ts) ∨ ts = [].
Proof.
  induction ts as [|t ts IH]; intros m Hpos Hm; [by right|]. left.
  destruct m as [|m]; [lia|]. rewrite py_sum_take_S.
  inversion Hpos as [|? ? Ht Hts]; subst.
  destruct m as [|m]; [rewrite take_0; cbn; lia|].
  destruct (IH (S m) Hts) as [?| ->]; [lia|lia|cbn; lia].
Qed.

(** For positive targets, fitting from a degree means that every partial sum
    of the targets is a running sum of the walk from that degree. *)
Lemma chord_fits_partial_sums s ts : ∀ d,
  positive_scale s →
  Forall (λ t, 0 < t) ts →
  chord_fits (intervals s) d ts ↔
  ∀ m, (0 < m ≤ length ts)%nat →
       ∃ k, running_sum (intervals s) d k = py_sum (take m ts).
Proof.
  intros d [Hne Hpos]. revert d.
  induction ts as [|t ts IH]; intros d Hts.
  { split; [cbn; intros _ m; lia|constructor]. }
  inversion Hts as [|? ? Ht Hts']; subst. split.
  - intros Hfit. inversion Hfit as [|? ? k ? [_ Hsum] Hrest]; subst.
    intros [|m] Hm; [lia|]. rewrite py_sum_take_S.
    destruct m as [|m].
    { exists k. rewrite take_0. cbn. lia. }
    destruct (proj1 (IH _ Hts') Hrest (S m)) as (k2 & Hk2); [cbn in Hm; lia|].
    exists (k + k2)%nat. rewrite running_sum_add, Hk2. lia.
  - intros Hsums.
    destruct (Hsums 1%nat) as (k & Hk); [cbn; lia|].
    rewrite py_sum_take_S, take_0 in Hk. cbn in Hk. rewrite Z.add_0_r in Hk.
    assert (0 < k)%nat as Hkpos by (destruct k; [cbn in Hk; lia|lia]).
    apply fits_cons with k.
    { split; [|done]. split; [done|]. intros k' Hk'.
      rewrite <- Hk. apply (running_sum_monotone s Hne Hpos). lia. }
    apply IH; [done|]. intros m Hm.
    destruct (Hsums (S m)) as (k2 & Hk2); [cbn; lia|].
    rewrite py_sum_take_S in Hk2.
    destruct (py_sum_take_positive ts m Hts') as [Hgt| ->]; [lia| |cbn in Hm; lia].
    assert (k < k2)%nat as Hlt.
    { destruct (decide (k < k2)%nat) as [|Hge]; [done|].
      assert (k2 = k ∨ k2 < k)%nat as [->|Hlt] by lia; [lia|].
      pose proof (running_sum_monotone s Hne Hpos d k2 k Hlt). lia. }
    exists (k2 - k)%nat.
    replace k2 with (k + (k2 - k))%nat in Hk2 by lia.
    rewrite running_sum_add in Hk2. lia.
Qed.

(** X12: On a scale of positive intervals and for a chord of positive targets,
    [add_chord] stores the degrees from which every note of the chord is a
    note of the scale: each partial sum of the chord's intervals is the
    distance [interval_between] gives from the root to some later index. *)
Theorem add_chord_roots_are_scale_notes (s : Scale) (chord : Chord) (fuel : nat) :
  positive_scale s →
  Forall (λ t, 0 < t) (chord_intervals chord) →
  (enough_fuel chord ≤ fuel)%nat →
  ∃ roots b,
    add_chord fuel s chord =
      Ret (set_chords s (<[chord_name chord := roots]> (chords s)), b) ∧
    ∀ r, r ∈ roots ↔
         0 ≤ r < num_notes s ∧
         ∀ m, (0 < m ≤ length (chord_intervals chord))%nat →
              ∃ j, r ≤ j ∧
                   interval_between s r j = Ret (py_sum (take m (chord_intervals chord))).
Proof.
  intros Hscale Hts Hfuel.
  destruct (add_chord_walk s Hscale chord fuel Hfuel) as (roots & b & Hrun & Hroots & _).
  exists roots, b. split; [done|]. intros r.
  rewrite Hroots, (chord_fits_partial_sums s _ r Hscale Hts).
  destruct Hscale as [Hne _].
  split; intros [Hr Hsums]; (split; [done|]); intros m Hm;
    destruct (Hsums m Hm) as (x & Hx).
  - exists (r + Z.of_nat x). split; [lia|].
    rewrite (interval_between_le s Hne) by lia. rewrite <- Hx. do 2 f_equal. lia.
  - destruct Hx as [Hle Hx]. rewrite (interval_between_le s Hne) in Hx by done.
    injection Hx as Hx. by eexists.
Qed.

Lemma add_chord_roots_are_scale_notes_witness :
  ∃ roots b,
    add_chord 5 (Scale_init "Major" [2;2;1;2;2;2;1]) major_chord =
      Ret (set_chords (Scale_init "Major" [2;2;1;2;2;2;1]) (<["Major" := roots]> ∅), b) ∧
    ∀ r, r ∈ roots ↔
         0 ≤ r < 7 ∧
         ∀ m, (0 < m ≤ 2)%nat →
              ∃ j, r ≤ j ∧
                   interval_between (Scale_init "Major" [2;2;1;2;2;2;1]) r j =
                     Ret (py_sum (take m [4; 3])).
Proof.
  apply (add_chord_roots_are_scale_notes (Scale_init "Major" [2;2;1;2;2;2;1]) major_chord 5).
  - apply major_intervals_positive.
  - cbn. repeat constructor.
  - vm_compute. lia.
Defined.

(** ** A scale that never climbs *)

Section flat_scale.
Variable s : Scale.
Hypothesis Hne : intervals s ≠ [].
Hypothesis Hflat : Forall (λ x, x ≤ 0) (intervals s).

Lemma degree_interval_flat d : degree_interval (intervals s) d ≤ 0.
Proof using Hne Hflat.
  destruct (degree_lookup s Hne d) as (x & Hx & ->).
  rewrite Forall_lookup in Hflat. by eapply Hflat.
Qed.

Lemma while_true_flat t fuel : ∀ acc i ill,
  0 < t → acc ≤ 0 → 0 ≤ i < num_notes s →
  while_true fuel s t (acc, i, ill) = OutOfFuel.
Proof using Hne Hflat.
  pose proof (num_notes_pos s Hne) as HN.
  induction fuel as [|fuel IH]; intros acc i ill Ht Hacc Hi; [done|].
  cbn [while_true]. rewrite (while_body_eq s Hne) by done. cbn zeta.
  pose proof (degree_interval_flat i) as Hx.
  destruct (Z.eqb_spec (acc + degree_interval (intervals s) i) t); [lia|].
  destruct (Z.gtb_spec (acc + degree_interval (intervals s) i) t); [lia|].
  cbn [mbind res_bind]. apply IH; [done|lia|]. apply Z.mod_pos_bound. lia.
Qed.
End flat_scale.

(** X13: On a non-empty scale none of whose intervals is positive, the [while]
    loop for a positive first target never ends: [add_chord] returns with no
    amount of fuel. *)
Theorem add_chord_diverges_on_flat_scale (s : Scale) (chord : Chord) (t : Z) (ts : list Z) :
  intervals s ≠ [] →
  Forall (λ x, x ≤ 0) (intervals s) →
  chord_intervals chord = t :: ts →
  0 < t →
  ∀ fuel, add_chord fuel s chord = OutOfFuel.
Proof.
  intros Hne Hflat Hts Ht fuel. pose proof (num_notes_pos s Hne) as HN.
  rewrite add_chord_fitting, Hts. unfold py_range. rewrite seqZ_cons by lia.
  cbn [fitting]. rewrite for_chord_intervals_cons. cbn [fst snd].
  rewrite (while_true_flat s Hne Hflat) by lia. done.
Qed.

Lemma add_chord_diverges_on_flat_scale_witness :
  add_chord 1000 (Scale_init "Drone" [0; 0]) major_chord = OutOfFuel.
Proof.
  refine (add_chord_diverges_on_flat_scale (Scale_init "Drone" [0; 0]) major_chord 4 [3]
            _ _ _ _ 1000%nat).
  - cbn. discriminate.
  - cbn. repeat constructor; lia.
  - reflexivity.
  - lia.
Defined.

(** ** [chordal_relationships] and [all_chordal_relationships] *)

Lemma for_each_invariant {A St} (P : St → Prop) (body : A → St → res St) xs :
  (∀ x st st', body x st = Ret st' → P st → P st') →
  ∀ st st', for_each xs body st = Ret st' → P st → P st'.
Proof.
  intros Hbody. induction xs as [|x xs IH]; intros st st' Hrun HP.
  - by injection Hrun as <-.
  - cbn [for_each] in Hrun. apply bind_Ret in Hrun as (st1 & Hstep & Hrest). eauto.
Qed.

Lemma summaries_app out1 out2 : summaries (out1 ++ out2) = summaries out1 ++ summaries out2.
Proof. apply omap_app. Qed.

Lemma interval_between_distance s i j :
  intervals s ≠ [] → interval_between s i j = Ret (distance s i j).
Proof.
  intros Hne. unfold distance.
  destruct (Z.le_ge_cases i j) as [Hij|Hji].
  - by rewrite (interval_between_le s Hne) by done.
  - by rewrite interval_between_sym, (interval_between_le s Hne) by done.
Qed.

Lemma relationship_text_returns a0 a1 a2 a3 a4 a5 a6 a7 :
  ∃ text, py_format relationship_template [a0; a1; a2; a3; a4; a5; a6; a7] = Ret text.
Proof. eexists. reflexivity. Qed.

(** A step of the nested loops appends one line and adds one value. *)
Lemma relationship_step_returns scale_1 scale_2 chord root_1 root_2 out fifths :
  intervals scale_1 ≠ [] →
  ∃ text,
    relationship_step scale_1 scale_2 chord root_1 root_2 (out, fifths) =
      Ret (out ++ [Print text], fifths ∪ {[ fifths_right scale_1 root_1 root_2 ]}).
Proof.
  intros Hne. unfold relationship_step.
  rewrite !(interval_between_distance _ _ _ Hne). cbn [mbind res_bind].
  edestruct relationship_text_returns as (text & ->). by exists text.
Qed.

Lemma relationship_step_line scale_1 scale_2 chord root_1 root_2 st st' :
  relationship_step scale_1 scale_2 chord root_1 root_2 st = Ret st' →
  summaries st'.1 = summaries st.1.
Proof.
  destruct st as [out fifths]. unfold relationship_step.
  intros (d1 & _ & (d2 & _ & (text & _ & [= <-])%bind_Ret)%bind_Ret)%bind_Ret.
  cbn [fst]. rewrite summaries_app. cbn. by rewrite app_nil_r.
Qed.

Lemma inner_loop_run scale_1 scale_2 chord root_1 roots :
  intervals scale_1 ≠ [] →
  ∀ out fifths,
  ∃ lines,
    for_each roots (relationship_step scale_1 scale_2 chord root_1) (out, fifths) =
      Ret (out ++ lines, fifths ∪ list_to_set (fifths_right scale_1 root_1 <$> roots)) ∧
    length lines = length roots ∧
    Forall is_line lines.
Proof.
  intros Hne. induction roots as [|r roots IH]; intros out fifths.
  { exists []. cbn. by rewrite app_nil_r, (right_id_L ∅ (∪)). }
  destruct (relationship_step_returns scale_1 scale_2 chord root_1 r out fifths Hne)
    as (text & Hstep).
  destruct (IH (out ++ [Print text]) (fifths ∪ {[fifths_right scale_1 root_1 r]}))
    as (lines & Hrun & Hlen & Hlines).
  exists (Print text :: lines). cbn [for_each]. rewrite Hstep. cbn [mbind res_bind].
  rewrite Hrun. split; [|split].
  - rewrite <- (assoc_L (++)). cbn [app fmap list_fmap].
    by rewrite list_to_set_cons, (assoc_L (∪)).
  - cbn. by rewrite Hlen.
  - constructor; [by exists text|done].
Qed.

Lemma outer_loop_run scale_1 scale_2 chord roots_2 roots :
  intervals scale_1 ≠ [] →
  chords scale_2 !! chord_name chord = Some roots_2 →
  ∀ out fifths,
  ∃ lines,
    for_each roots
      (λ root_1 st,
         roots_2 ← py_getitem (chords scale_2) (chord_name chord);
         for_each (elements roots_2) (relationship_step scale_1 scale_2 chord root_1) st)
      (out, fifths) =
      Ret (out ++ lines,
           fifths ∪ list_to_set
             (r1 ← roots; fifths_right scale_1 r1 <$> elements roots_2)) ∧
    length lines = (length roots * size roots_2)%nat ∧
    Forall is_line lines.
Proof.
  intros Hne Hroots.
  assert (Hget : py_getitem (chords scale_2) (chord_name chord) = Ret roots_2)
    by (unfold py_getitem; by rewrite Hroots).
  rewrite Hget. cbn [mbind res_bind].
  induction roots as [|r roots IH]; intros out fifths.
  { exists []. cbn. by rewrite app_nil_r, (right_id_L ∅ (∪)). }
  destruct (inner_loop_run scale_1 scale_2 chord r (elements roots_2) Hne out fifths)
    as (lines1 & Hrun1 & Hlen1 & Hlines1).
  destruct (IH (out ++ lines1)
              (fifths ∪ list_to_set (fifths_right scale_1 r <$> elements roots_2)))
    as (lines2 & Hrun2 & Hlen2 & Hlines2).
  exists (lines1 ++ lines2). cbn [for_each].
  rewrite Hrun1. cbn [mbind res_bind]. rewrite Hrun2. split; [|split].
  - rewrite <- (assoc_L (++)). do 2 f_equal.
    cbn [mbind list_bind]. by rewrite list_to_set_app_L, (assoc_L (∪)).
  - rewrite length_app, Hlen1, Hlen2. unfold size, set_size. cbn. lia.
  - by apply Forall_app.
Qed.

Lemma has_chord_intervals fuel s chord s' b :
  has_chord fuel s chord = Ret (s', b) → intervals s' = intervals s.
Proof.
  unfold has_chord. destruct (chords s !! chord_name chord) as [roots|].
  - destruct (_ >? _); [by intros [= <- _]|].
    destruct (_ =? _); [by intros [= <- _]|].
    by intros (? & -> & _)%add_chord_result.
  - by intros (? & -> & _)%add_chord_result.
Qed.

Lemma call_has_chord_lookup fuel (h : heap) scale chord s s' b :
  h !! scale = Some s →
  has_chord fuel s chord = Ret (s', b) →
  call_has_chord fuel h scale chord = Ret (<[scale := s']> h, b).
Proof. intros Hs Hrun. unfold call_has_chord, deref. rewrite Hs. cbn. by rewrite Hrun. Qed.

(** The whole run when both scales have the chord. *)
Lemma chordal_relationships_run fuel (h : heap) scale_1 scale_2 chord s1 s2 s1' s2' :
  h !! scale_1 = Some s1 →
  h !! scale_2 = Some s2 →
  has_chord fuel s1 chord = Ret (s1', true) →
  has_chord fuel s2 chord = Ret (s2', true) →
  intervals s1 ≠ [] →
  ∃ roots_1 roots_2 lines,
    chords s1' !! chord_name chord = Some roots_1 ∧
    chords s2' !! chord_name chord = Some roots_2 ∧
    roots_1 ≠ ∅ ∧ roots_2 ≠ ∅ ∧
    chordal_relationships fuel h scale_1 scale_2 chord =
      Ret (<[scale_2 := s2']> (<[scale_1 := s1']> h),
           lines ++ [PrintReach (chord_name chord)
                       (list_to_set (r1 ← elements roots_1;
                                     fifths_right s1' r1 <$> elements roots_2))]) ∧
    length lines = (size roots_1 * size roots_2)%nat ∧
    Forall is_line lines.
Proof.
  intros H1 H2 Hrun1 Hrun2 Hne.
  destruct (has_chord_result _ _ _ _ _ Hrun1) as (roots_1 & Hroots1 & Hb1).
  destruct (has_chord_result _ _ _ _ _ Hrun2) as (roots_2 & Hroots2 & Hb2).
  assert (Hne' : intervals s1' ≠ []) by (by rewrite (has_chord_intervals _ _ _ _ _ Hrun1)).
  destruct (outer_loop_run s1' s2' chord roots_2 (elements roots_1) Hne' Hroots2 [] ∅)
    as (lines & Hloop & Hlen & Hlines).
  exists roots_1, roots_2, lines.
  split; [done|]. split; [done|]. split; [by apply Hb1|]. split; [by apply Hb2|].
  split; [|done].
  assert (Hsecond : call_has_chord fuel (<[scale_1 := s1']> h) scale_2 chord =
                      Ret (<[scale_2 := s2']> (<[scale_1 := s1']> h), true)).
  { unfold call_has_chord, deref.
    destruct (decide (scale_1 = scale_2)) as [Hsame|Hdiff].
    - subst scale_2. rewrite H1 in H2. injection H2 as <-.
      rewrite Hrun1 in Hrun2. injection Hrun2 as <-.
      rewrite lookup_insert_eq. cbn [mbind res_bind].
      by rewrite (has_chord_same_name _ _ _ _ chord _ Hrun1 eq_refl fuel).
    - rewrite lookup_insert_ne, H2 by done. cbn [mbind res_bind]. by rewrite Hrun2. }
  unfold chordal_relationships. cbn zeta.
  rewrite (call_has_chord_lookup _ _ _ _ _ _ _ H1 Hrun1). cbn [mbind res_bind].
  rewrite Hsecond. cbn [mbind res_bind andb].
  assert (Hd1 : deref (<[scale_2 := s2']> (<[scale_1 := s1']> h)) scale_1 = Ret s1').
  { unfold deref. destruct (decide (scale_1 = scale_2)) as [Hsame|Hdiff].
    - subst scale_2. rewrite H1 in H2. injection H2 as <-.
      rewrite Hrun1 in Hrun2. injection Hrun2 as <-. by rewrite lookup_insert_eq.
    - by rewrite lookup_insert_ne, lookup_insert_eq by done. }
  assert (Hd2 : deref (<[scale_2 := s2']> (<[scale_1 := s1']> h)) scale_2 = Ret s2')
    by (unfold deref; by rewrite lookup_insert_eq).
  rewrite Hd1. cbn [mbind res_bind]. rewrite Hd2. cbn [mbind res_bind].
  assert (Hget : py_getitem (chords s1') (chord_name chord) = Ret roots_1)
    by (unfold py_getitem; by rewrite Hroots1).
  rewrite Hget. cbn [mbind res_bind].
  rewrite Hloop. cbn [mbind res_bind app]. by rewrite (left_id_L ∅ (∪)).
Qed.

Lemma elem_of_fifths (s : Scale) (roots_1 roots_2 : gset Z) f :
  f ∈ (list_to_set (r1 ← elements roots_1; fifths_right s r1 <$> elements roots_2) : gset Z) ↔
  ∃ r1 r2, r1 ∈ roots_1 ∧ r2 ∈ roots_2 ∧ f = fifths_right s r1 r2.
Proof.
  rewrite elem_of_list_to_set, list_elem_of_bind. split.
  - intros (r1 & (r2 & -> & Hr2)%list_elem_of_fmap & Hr1).
    exists r1, r2. by rewrite <- !elem_of_elements.
  - intros (r1 & r2 & Hr1 & Hr2 & ->). exists r1. rewrite elem_of_elements.
    split; [|done]. apply list_elem_of_fmap. exists r2. by rewrite elem_of_elements.
Qed.

(** X14: When [has_chord] answers [False] for the first scale, the second scale
    is never consulted: the output is the empty summary and the only object
    touched is the first scale, which gets its memo. *)
Theorem chordal_relationships_short_circuit (fuel : nat) (h : heap)
    (scale_1 scale_2 : loc) (chord : Chord) (s1 s1' : Scale) :
  h !! scale_1 = Some s1 →
  has_chord fuel s1 chord = Ret (s1', false) →
  chordal_relationships fuel h scale_1 scale_2 chord =
    Ret (<[scale_1 := s1']> h, [PrintReach (chord_name chord) ∅]).
Proof.
  intros H1 Hrun1. unfold chordal_relationships. cbn zeta.
  by rewrite (call_has_chord_lookup _ _ _ _ _ _ _ H1 Hrun1).
Qed.

Lemma chordal_relationships_short_circuit_witness :
  chordal_relationships 5 constructed major_scale minor_scale aug_chord =
    Ret (<[major_scale := mkScale "Major" [2;2;1;2;2;2;1] {["Augmented" := ∅]}]> constructed,
         [PrintReach "Augmented" ∅]).
Proof.
  apply (chordal_relationships_short_circuit 5 constructed major_scale minor_scale aug_chord
           (Scale_init "Major" [2;2;1;2;2;2;1])
           (mkScale "Major" [2;2;1;2;2;2;1] {["Augmented" := ∅]})).
  - reflexivity.
  - vm_compute. reflexivity.
Defined.

(** X15: When both scales have the chord, the summary holds exactly the values
    [(key_distance * 7) % 12] over the pairs of stored roots, both distances of
    a pair being taken on the first scale; each value lies in [0, 12). *)
Theorem chordal_relationships_reached (fuel : nat) (h : heap) (scale_1 scale_2 : loc)
    (chord : Chord) (s1 s2 s1' s2' : Scale) :
  h !! scale_1 = Some s1 →
  h !! scale_2 = Some s2 →
  has_chord fuel s1 chord = Ret (s1', true) →
  has_chord fuel s2 chord = Ret (s2', true) →
  intervals s1 ≠ [] →
  ∃ roots_1 roots_2 h' lines fifths,
    chords s1' !! chord_name chord = Some roots_1 ∧
    chords s2' !! chord_name chord = Some roots_2 ∧
    chordal_relationships fuel h scale_1 scale_2 chord =
      Ret (h', lines ++ [PrintReach (chord_name chord) fifths]) ∧
    ∀ f, f ∈ fifths ↔
         0 ≤ f < 12 ∧
         ∃ r1 r2 dist_1 dist_2,
           r1 ∈ roots_1 ∧ r2 ∈ roots_2 ∧
           interval_between s1' 0 r1 = Ret dist_1 ∧
           interval_between s1' 0 r2 = Ret dist_2 ∧
           f = ((dist_2 - dist_1) * 7) `mod` 12.
Proof.
  intros H1 H2 Hrun1 Hrun2 Hne.
  destruct (chordal_relationships_run fuel h scale_1 scale_2 chord s1 s2 s1' s2'
              H1 H2 Hrun1 Hrun2 Hne)
    as (roots_1 & roots_2 & lines & Hroots1 & Hroots2 & _ & _ & Hrun & _).
  assert (Hne' : intervals s1' ≠ []) by (by rewrite (has_chord_intervals _ _ _ _ _ Hrun1)).
  eexists roots_1, roots_2, _, lines, _. split; [done|]. split; [done|]. split; [done|].
  intros f. rewrite elem_of_fifths. split.
  - intros (r1 & r2 & Hr1 & Hr2 & ->). split; [apply Z.mod_pos_bound; lia|].
    exists r1, r2, (distance s1' 0 r1), (distance s1' 0 r2).
    by rewrite !(interval_between_distance _ _ _ Hne').
  - intros (_ & r1 & r2 & d1 & d2 & Hr1 & Hr2 & Hd1 & Hd2 & ->).
    exists r1, r2. split; [done|]. split; [done|].
    unfold fifths_right, distance. by rewrite Hd1, Hd2.
Qed.

Lemma chordal_relationships_reached_witness :
  ∃ roots_1 roots_2 h' lines fifths,
    chords (mkScale "Major" [2;2;1;2;2;2;1] {["Major" := {[0; 3; 4]}]}) !! "Major"
      = Some roots_1 ∧
    chords (mkScale "Minor" [2;1;2;2;1;2;2] {["Major" := {[2; 5; 6]}]}) !! "Major"
      = Some roots_2 ∧
    chordal_relationships 5 constructed major_scale minor_scale major_chord =
      Ret (h', lines ++ [PrintReach "Major" fifths]) ∧
    ∀ f, f ∈ fifths ↔
         0 ≤ f < 12 ∧
         ∃ r1 r2 dist_1 dist_2,
           r1 ∈ roots_1 ∧ r2 ∈ roots_2 ∧
           interval_between (mkScale "Major" [2;2;1;2;2;2;1] {["Major" := {[0; 3; 4]}]}) 0 r1
             = Ret dist_1 ∧
           interval_between (mkScale "Major" [2;2;1;2;2;2;1] {["Major" := {[0; 3; 4]}]}) 0 r2
             = Ret dist_2 ∧
           f = ((dist_2 - dist_1) * 7) `mod` 12.
Proof.
  apply (chordal_relationships_reached 5 constructed major_scale minor_scale major_chord
           (Scale_init "Major" [2;2;1;2;2;2;1]) (Scale_init "Minor" [2;1;2;2;1;2;2])
           (mkScale "Major" [2;2;1;2;2;2;1] {["Major" := {[0; 3; 4]}]})
           (mkScale "Minor" [2;1;2;2;1;2;2] {["Major" := {[2; 5; 6]}]})).
  - reflexivity.
  - reflexivity.
  - vm_compute. reflexivity.
  - vm_compute. reflexivity.
  - cbn. discriminate.
Defined.

(** X16: When both scales have the chord, one relationship line is printed for
    every pair of a stored root of the first scale and one of the second,
    followed by the summary; both scales leave with their memo. *)
Theorem chordal_relationships_line_count (fuel : nat) (h : heap) (scale_1 scale_2 : loc)
    (chord : Chord) (s1 s2 s1' s2' : Scale) :
  h !! scale_1 = Some s1 →
  h !! scale_2 = Some s2 →
  has_chord fuel s1 chord = Ret (s1', true) →
  has_chord fuel s2 chord = Ret (s2', true) →
  intervals s1 ≠ [] →
  ∃ roots_1 roots_2 lines fifths,
    chords s1' !! chord_name chord = Some roots_1 ∧
    chords s2' !! chord_name chord = Some roots_2 ∧
    chordal_relationships fuel h scale_1 scale_2 chord =
      Ret (<[scale_2 := s2']> (<[scale_1 := s1']> h),
           lines ++ [PrintReach (chord_name chord) fifths]) ∧
    Forall is_line lines ∧
    length lines = (size roots_1 * size roots_2)%nat ∧
    (0 < length lines)%nat.
Proof.
  intros H1 H2 Hrun1 Hrun2 Hne.
  destruct (chordal_relationships_run fuel h scale_1 scale_2 chord s1 s2 s1' s2'
              H1 H2 Hrun1 Hrun2 Hne)
    as (roots_1 & roots_2 & lines & Hroots1 & Hroots2 & Hne1 & Hne2 & Hrun & Hlen & Hlines).
  eexists roots_1, roots_2, lines, _.
  split; [done|]. split; [done|]. split; [done|]. split; [done|]. split; [done|].
  rewrite Hlen.
  assert (size roots_1 ≠ 0%nat ∧ size roots_2 ≠ 0%nat) as [? ?]
    by (split; intros Hz%size_empty_iff%leibniz_equiv; done).
  nia.
Qed.

Lemma chordal_relationships_line_count_witness :
  ∃ roots_1 roots_2 lines fifths,
    chords (mkScale "Major" [2;2;1;2;2;2;1] {["Diminished" := {[6]}]}) !! "Diminished"
      = Some roots_1 ∧
    chords (mkScale "Minor" [2;1;2;2;1;2;2] {["Diminished" := {[1]}]}) !! "Diminished"
      = Some roots_2 ∧
    chordal_relationships 5 constructed major_scale minor_scale dim_chord =
      Ret (<[minor_scale := mkScale "Minor" [2;1;2;2;1;2;2] {["Diminished" := {[1]}]}]>
             (<[major_scale := mkScale "Major" [2;2;1;2;2;2;1] {["Diminished" := {[6]}]}]>
                constructed),
           lines ++ [PrintReach "Diminished" fifths]) ∧
    Forall is_line lines ∧
    length lines = (size roots_1 * size roots_2)%nat ∧
    (0 < length lines)%nat.
Proof.
  apply (chordal_relationships_line_count 5 constructed major_scale minor_scale dim_chord
           (Scale_init "Major" [2;2;1;2;2;2;1]) (Scale_init "Minor" [2;1;2;2;1;2;2])
           (mkScale "Major" [2;2;1;2;2;2;1] {["Diminished" := {[6]}]})
           (mkScale "Minor" [2;1;2;2;1;2;2] {["Diminished" := {[1]}]})).
  - reflexivity.
  - reflexivity.
  - vm_compute. reflexivity.
  - vm_compute. reflexivity.
  - cbn. discriminate.
Defined.

(** X17: For a scale against itself (the same object), when it has the chord, the
    summary holds 0, and with every value [f] it holds [(12 - f) % 12]: what
    is reached some fifths to the right is reached as many to the left. *)
Theorem chordal_relationships_same_scale (fuel : nat) (h : heap) (scale : loc)
    (chord : Chord) (s s' : Scale) :
  h !! scale = Some s →
  has_chord fuel s chord = Ret (s', true) →
  intervals s ≠ [] →
  ∃ lines fifths,
    chordal_relationships fuel h scale scale chord =
      Ret (<[scale := s']> h, lines ++ [PrintReach (chord_name chord) fifths]) ∧
    0 ∈ fifths ∧
    ∀ f, f ∈ fifths → (12 - f) `mod` 12 ∈ fifths.
Proof.
  intros Hs Hrun Hne.
  destruct (chordal_relationships_run fuel h scale scale chord s s s' s'
              Hs Hs Hrun Hrun Hne)
    as (roots_1 & roots_2 & lines & Hroots1 & Hroots2 & Hne1 & _ & Hrun' & _).
  rewrite Hroots1 in Hroots2. injection Hroots2 as <-.
  rewrite insert_insert_eq in Hrun'.
  eexists lines, _. split; [done|]. split.
  - apply set_choose_L in Hne1 as (r & Hr). apply elem_of_fifths.
    exists r, r. split; [done|]. split; [done|].
    unfold fifths_right. by rewrite Z.sub_diag.
  - intros f (r1 & r2 & Hr1 & Hr2 & ->)%elem_of_fifths. apply elem_of_fifths.
    exists r2, r1. split; [done|]. split; [done|].
    unfold fifths_right.
    generalize (distance s' 0 r1) (distance s' 0 r2). intros d1 d2.
    Z.div_mod_to_equations. lia.
Qed.

Lemma chordal_relationships_same_scale_witness :
  ∃ lines fifths,
    chordal_relationships 5 constructed minor_scale minor_scale minor_chord =
      Ret (<[minor_scale := mkScale "Minor" [2;1;2;2;1;2;2] {["Minor" := {[0; 3; 4]}]}]>
             constructed,
           lines ++ [PrintReach "Minor" fifths]) ∧
    0 ∈ fifths ∧
    ∀ f, f ∈ fifths → (12 - f) `mod` 12 ∈ fifths.
Proof.
  apply (chordal_relationships_same_scale 5 constructed minor_scale minor_chord
           (Scale_init "Minor" [2;1;2;2;1;2;2])
           (mkScale "Minor" [2;1;2;2;1;2;2] {["Minor" := {[0; 3; 4]}]})).
  - reflexivity.
  - vm_compute. reflexivity.
  - cbn. discriminate.
Defined.

Lemma chordal_relationships_summaries fuel (h h' : heap) scale_1 scale_2 chord out :
  chordal_relationships fuel h scale_1 scale_2 chord = Ret (h', out) →
  summaries out = [chord_name chord].
Proof.
  unfold chordal_relationships. cbn zeta.
  intros ([h1 b1] & _ & ([h2 b2] & _ & ([lines fifths] & Hloop & [= _ <-])%bind_Ret)%bind_Ret)%bind_Ret.
  rewrite summaries_app. cbn.
  enough (summaries lines = []) as -> by done.
  destruct (b1 && b2); [|by injection Hloop as <- _].
  apply bind_Ret in Hloop as (s1 & _ & Hloop).
  apply bind_Ret in Hloop as (s2 & _ & Hloop).
  apply bind_Ret in Hloop as (roots_1 & _ & Hloop).
  change (summaries (lines, fifths).1 = []).
  eapply (for_each_invariant (λ st, summaries st.1 = [])); [|exact Hloop|done].
  intros root_1 st st' Hinner Hst.
  apply bind_Ret in Hinner as (roots_2 & _ & Hinner).
  eapply (for_each_invariant (λ st, summaries st.1 = [])); [|exact Hinner|done].
  intros root_2 st1 st1' Hstep Hst1.
  by rewrite (relationship_step_line _ _ _ _ _ _ _ Hstep).
Qed.

Lemma all_chordal_relationships_loop fuel scale_1 scale_2 cs : ∀ (h h' : heap) out out',
  for_each cs
    (λ chord '(h, out),
       '(h, out') ← chordal_relationships fuel h scale_1 scale_2 chord;
       Ret (h, out ++ out'))
    (h, out) = Ret (h', out') →
  summaries out' = summaries out ++ (chord_name <$> cs).
Proof.
  induction cs as [|c cs IH]; intros h h' out out' Hrun.
  { injection Hrun as _ <-. by rewrite app_nil_r. }
  cbn [for_each] in Hrun. apply bind_Ret in Hrun as ([h1 out1] & Hstep & Hrest).
  apply bind_Ret in Hstep as ([h2 out2] & Hcall & [= <- <-]).
  rewrite (IH _ _ _ _ Hrest), summaries_app.
  rewrite (chordal_relationships_summaries _ _ _ _ _ _ _ Hcall).
  by rewrite <- (assoc_L (++)).
Qed.

(** X18: Whenever [all_chordal_relationships] returns, its output has exactly six
    summaries, one per chord of the catalog and in the catalog's order. *)
Theorem all_chordal_relationships_summaries (fuel : nat) (h h' : heap)
    (scale_1 scale_2 : loc) (out : list event) :
  all_chordal_relationships fuel h scale_1 scale_2 = Ret (h', out) →
  summaries out = ["Major"; "Minor"; "Diminished"; "Augmented"; "Sus2"; "Sus4"].
Proof.
  intros Hrun. unfold all_chordal_relationships in Hrun.
  by rewrite (all_chordal_relationships_loop _ _ _ _ _ _ _ _ Hrun).
Qed.

Lemma all_chordal_relationships_summaries_witness :
  ∃ h' out,
    all_chordal_relationships 0 loaded major_scale minor_scale = Ret (h', out) ∧
    summaries out = ["Major"; "Minor"; "Diminished"; "Augmented"; "Sus2"; "Sus4"].
Proof.
  eexists _, _. split; [vm_compute; reflexivity|].
  eapply (all_chordal_relationships_summaries 0 loaded _ major_scale minor_scale).
  vm_compute. reflexivity.
Defined.
